(** * pysme.grid_conv: grid-convergence testing of SDE integrators

    A shallow embedding of [src/pysme/grid_conv.py] and the properties of
    its three functions [l1_norm], [double_increments] and [calc_rate].

    Scalars are IEEE binary64 numbers (numpy's [float64]), arrays are
    numpy [ndarray]s of rank at most two (the ranks the docstrings
    declare), Python exceptions are explicit results.  The two numpy
    routines whose result is not fixed by IEEE 754 ([np.sum], whose
    association order is internal to numpy, and [np.log]) and the random
    source are the fields of an environment [Env]; the integrator is an
    argument of [calc_rate], as in the source.

    Arrays are values in the main model.  A second model of
    [double_increments], [Mem.double_increments_h], keeps numpy's buffers
    and views; it is proved to compute the same values
    ([double_increments_h_refines]) and is where sharing of memory is
    stated. *)

From Stdlib Require Import Floats List ZArith Lia Bool Arith PeanoNat.
Import ListNotations.

Local Open Scope nat_scope.

(** ** Python results *)

(** The exceptions the module can raise.  The three first ones are all
    [ValueError] in Python; they are kept apart by what raised them.
    [IExn] is the type of whatever an integrator raises. *)
Inductive pyexn (IExn : Type) : Type :=
| BroadcastError    (* ValueError: operands could not be broadcast together *)
| UnpackError       (* ValueError: not enough values to unpack *)
| NegativeDimError  (* ValueError: negative dimensions are not allowed *)
| IndexError        (* indexing a 0-d array, or [-1] of an empty sequence *)
| TypeError         (* len() of unsized object *)
| IntegratorError (e : IExn).
Arguments BroadcastError {IExn}.
Arguments UnpackError {IExn}.
Arguments NegativeDimError {IExn}.
Arguments IndexError {IExn}.
Arguments TypeError {IExn}.
Arguments IntegratorError {IExn} e.

Inductive pyresult (E A : Type) : Type :=
| Return (a : A)
| Raise (e : pyexn E).
Arguments Return {E A} a.
Arguments Raise {E A} e.

Definition rbind {E A B} (r : pyresult E A) (k : A -> pyresult E B) : pyresult E B :=
  match r with
  | Return a => k a
  | Raise e => Raise e
  end.

Declare Scope py_scope.
Delimit Scope py_scope with py.
Notation "x <- c ;; k" := (rbind c (fun x => k))
  (at level 61, c at next level, right associativity) : py_scope.

(** ** numpy arrays *)

(** An array of rank 0, 1 or 2.  [A2 c rows] has shape [(length rows, c)];
    the column count is stored because a matrix may have no row. *)
Inductive ndarray : Type :=
| A0 (x : float)
| A1 (xs : list float)
| A2 (ncols : nat) (rows : list (list float)).

Definition wf_ndarray (a : ndarray) : Prop :=
  match a with
  | A2 c rows => Forall (fun r => length r = c) rows
  | _ => True
  end.

(** [l[start::step]] for [0 <= start] and [0 < step]: the element at
    position [start], then every [step]-th one. *)
Fixpoint take_every {A : Type} (step skip : nat) (l : list A) : list A :=
  match l with
  | [] => []
  | x :: t =>
      match skip with
      | O => x :: take_every step (step - 1) t
      | S k => take_every step k t
      end
  end.

(** [a[start::2]]: basic slicing selects along the first axis, whatever
    the rank; a 0-d array cannot be indexed. *)
Definition np_slice2 {E} (start : nat) (a : ndarray) : pyresult E ndarray :=
  match a with
  | A0 _ => Raise IndexError
  | A1 xs => Return (A1 (take_every 2 start xs))
  | A2 c rows => Return (A2 c (take_every 2 start rows))
  end.

(** *** Broadcasting *)

(** Two extents are compatible when they are equal or one of them is 1. *)
Definition bdim (m k : nat) : option nat :=
  if m =? k then Some m
  else if m =? 1 then Some k
  else if k =? 1 then Some m
  else None.

Fixpoint zip_with {A B C : Type} (f : A -> B -> C) (xs : list A) (ys : list B) : list C :=
  match xs, ys with
  | x :: xs', y :: ys' => f x y :: zip_with f xs' ys'
  | _, _ => []
  end.

(** One axis of a broadcast operation. *)
Definition bcast {A B C : Type} (f : A -> B -> C) (xs : list A) (ys : list B)
  : option (list C) :=
  if length xs =? length ys then Some (zip_with f xs ys)
  else match xs, ys with
       | [x], _ => Some (map (f x) ys)
       | _, [y] => Some (map (fun x => f x y) xs)
       | _, _ => None
       end.

(** The last axis of a rank-2 operation, once the column counts are known
    to be compatible. *)
Definition brow (f : float -> float -> float) (r1 r2 : list float) : list float :=
  match bcast f r1 r2 with
  | Some r => r
  | None => []
  end.

Definition mat_binop {E} (f : float -> float -> float)
  (c1 : nat) (r1 : list (list float)) (c2 : nat) (r2 : list (list float))
  : pyresult E ndarray :=
  match bdim c1 c2, bcast (brow f) r1 r2 with
  | Some c, Some rows => Return (A2 c rows)
  | _, _ => Raise BroadcastError
  end.

(** An elementwise binary operation of numpy. *)
Definition np_binop {E} (f : float -> float -> float) (a b : ndarray)
  : pyresult E ndarray :=
  match a, b with
  | A0 x, A0 y => Return (A0 (f x y))
  | A0 x, A1 ys => Return (A1 (map (f x) ys))
  | A0 x, A2 c rows => Return (A2 c (map (map (f x)) rows))
  | A1 xs, A0 y => Return (A1 (map (fun x => f x y) xs))
  | A2 c rows, A0 y => Return (A2 c (map (map (fun x => f x y)) rows))
  | A1 xs, A1 ys =>
      match bcast f xs ys with
      | Some r => Return (A1 r)
      | None => Raise BroadcastError
      end
  | A1 xs, A2 c rows => mat_binop f (length xs) [xs] c rows
  | A2 c rows, A1 ys => mat_binop f c rows (length ys) [ys]
  | A2 c1 r1, A2 c2 r2 => mat_binop f c1 r1 c2 r2
  end.

Definition np_add {E} := @np_binop E PrimFloat.add.
Definition np_sub {E} := @np_binop E PrimFloat.sub.
Definition np_mul {E} := @np_binop E PrimFloat.mul.
Definition np_div {E} := @np_binop E PrimFloat.div.

Definition np_abs (a : ndarray) : ndarray :=
  match a with
  | A0 x => A0 (PrimFloat.abs x)
  | A1 xs => A1 (map PrimFloat.abs xs)
  | A2 c rows => A2 c (map (map PrimFloat.abs) rows)
  end.

(** The scalar components of an array, in row-major order. *)
Definition flatten (a : ndarray) : list float :=
  match a with
  | A0 x => [x]
  | A1 xs => xs
  | A2 _ rows => concat rows
  end.

(** Infinities and NaN. *)
Definition not_finite (x : float) : bool :=
  match classify x with
  | NaN | PInf | NInf => true
  | _ => false
  end.

(** ** The refiner *)

(** What [double_increments] returns: a tuple of two or of three arrays. *)
Inductive refined : Type :=
| Pair (new_times new_U1s : ndarray)
| Triple (new_times new_U1s new_U2s : ndarray).

Definition refined_times (r : refined) : ndarray :=
  match r with Pair t _ => t | Triple t _ _ => t end.
Definition refined_U1s (r : refined) : ndarray :=
  match r with Pair _ u => u | Triple _ u _ => u end.
Definition refined_U2s (r : refined) : option ndarray :=
  match r with Pair _ _ => None | Triple _ _ v => Some v end.

Definition double_increments {E} (times U1s : ndarray) (U2s : option ndarray)
  : pyresult E refined :=
  (new_times <- np_slice2 0 times ;;
   even_U1s <- np_slice2 0 U1s ;;
   odd_U1s <- np_slice2 1 U1s ;;
   s <- np_add even_U1s odd_U1s ;;
   new_U1s <- np_div s (A0 (PrimFloat.sqrt 2)) ;;
   match U2s with
   | None => Return (Pair new_times new_U1s)
   | Some U2s =>
       even_U2s <- np_slice2 0 U2s ;;
       odd_U2s <- np_slice2 1 U2s ;;
       d <- np_sub even_U1s odd_U1s ;;
       m <- np_mul (A0 (PrimFloat.sqrt 3)) d ;;
       s1 <- np_add m even_U2s ;;
       s2 <- np_add s1 odd_U2s ;;
       new_U2s <- np_div s2 (A0 (PrimFloat.mul 2 (PrimFloat.sqrt 2))) ;;
       Return (Triple new_times new_U1s new_U2s)
   end)%py.

(** What the body of [double_increments] computes on the elements of rank-1
    operands of equal extents: the same slices and the same elementwise
    operations, in the same order. *)
Definition merge_U1 (U1s : list float) : list float :=
  let even_U1s := take_every 2 0 U1s in
  let odd_U1s := take_every 2 1 U1s in
  map (fun s => PrimFloat.div s (PrimFloat.sqrt 2))
    (zip_with PrimFloat.add even_U1s odd_U1s).

Definition merge_U2 (U1s U2s : list float) : list float :=
  let even_U1s := take_every 2 0 U1s in
  let odd_U1s := take_every 2 1 U1s in
  let even_U2s := take_every 2 0 U2s in
  let odd_U2s := take_every 2 1 U2s in
  map (fun s => PrimFloat.div s (PrimFloat.mul 2 (PrimFloat.sqrt 2)))
    (zip_with PrimFloat.add
       (zip_with PrimFloat.add
          (map (PrimFloat.mul (PrimFloat.sqrt 3))
             (zip_with PrimFloat.sub even_U1s odd_U1s))
          even_U2s)
       odd_U2s).

(** The refinement the docstring promises for a batch of shape
    [(N, len(times) - 1)]: every row is an independent trajectory and is
    merged on its own. *)
Definition rowwise_U1 (rows : list (list float)) : list (list float) :=
  map merge_U1 rows.

(** ** The estimator *)

(** What an integrator returns: an object whose [vec_soln] is the sequence
    of states, one per time of the grid. *)
Record Solution : Type := { vec_soln : list ndarray }.

(** [seq[-1]]. *)
Definition py_last {E A} (l : list A) : pyresult E A :=
  match rev l with
  | [] => Raise IndexError
  | x :: _ => Return x
  end.

(** [len(a)] of an array: the extent of its first axis. *)
Definition py_len {E} (a : ndarray) : pyresult E Z :=
  match a with
  | A0 _ => Raise TypeError
  | A1 xs => Return (Z.of_nat (length xs))
  | A2 _ rows => Return (Z.of_nat (length rows))
  end.

(** [a, b, c = t] *)
Definition unpack3 {E} (r : refined) : pyresult E (ndarray * ndarray * ndarray) :=
  match r with
  | Pair _ _ => Raise UnpackError
  | Triple t u v => Return (t, u, v)
  end.

(** What the module runs against: numpy's reduction of a run of scalars
    and its logarithm, the state of everything outside the module (the
    random source and whatever the integrator keeps), the random source
    giving [n] standard-normal samples, and the types of the initial state
    (opaque: it is only handed to the integrator) and of the integrator's
    exceptions. *)
Record Env : Type := {
  World : Type;
  Rho : Type;
  IExn : Type;
  np_sum_flat : list float -> float;
  np_log : float -> float;
  randn : nat -> World -> list float * World
}.

Section Estimator.

Variable env : Env.

(** A computation that may raise and may change the world. *)
Definition M (A : Type) : Type :=
  World env -> pyresult (IExn env) A * World env.

Definition ret {A} (a : A) : M A := fun w => (Return a, w).
Definition bind {A B} (c : M A) (k : A -> M B) : M B :=
  fun w =>
    match c w with
    | (Return a, w') => k a w'
    | (Raise e, w') => (Raise e, w')
    end.
Definition lift {A} (r : pyresult (IExn env) A) : M A := fun w => (r, w).

Notation "x <-- c ;; k" := (bind c (fun x => k))
  (at level 61, c at next level, right associativity).
Notation "' pat <-- c ;; k" := (bind c (fun x => match x with pat => k end))
  (at level 61, pat pattern, c at next level, right associativity).

(** [integrator.integrate(rho_0, times, U1s, U2s)]; the increments are
    optional arguments of the interface. *)
Definition Integrator : Type :=
  Rho env -> ndarray -> option ndarray -> option ndarray ->
  World env -> (Solution + IExn env) * World env.

Definition integrate (integrator : Integrator) (rho_0 : Rho env)
  (times : ndarray) (U1s U2s : option ndarray) : M Solution :=
  fun w =>
    match integrator rho_0 times U1s U2s w with
    | (inl sol, w') => (Return sol, w')
    | (inr e, w') => (Raise (IntegratorError e), w')
    end.

Definition np_sum (a : ndarray) : float := np_sum_flat env (flatten a).

Definition l1_norm (vec : ndarray) : float := np_sum (np_abs vec).

(** [np.random.randn(n)] for a Python integer [n]. *)
Definition np_random_randn (n : Z) : M ndarray :=
  fun w =>
    if (n <? 0)%Z then (Raise NegativeDimError, w)
    else let (xs, w') := randn env (Z.to_nat n) w in (Return (A1 xs), w').

(** [if U is None: U = np.random.randn(increments)] *)
Definition or_randn (U : option ndarray) (increments : Z) : M ndarray :=
  match U with
  | None => np_random_randn increments
  | Some u => ret u
  end.

Definition calc_rate (integrator : Integrator) (rho_0 : Rho env)
  (times : ndarray) (U1s U2s : option ndarray) : M float :=
  len <-- lift (py_len times) ;;
  let increments := (len - 1)%Z in
  U1s <-- or_randn U1s increments ;;
  U2s <-- or_randn U2s increments ;;
  r2 <-- lift (double_increments times U1s (Some U2s)) ;;
  '(times_2, U1s_2, U2s_2) <-- lift (unpack3 r2) ;;
  r4 <-- lift (double_increments times_2 U1s_2 (Some U2s_2)) ;;
  '(times_4, U1s_4, U2s_4) <-- lift (unpack3 r4) ;;
  sol <-- integrate integrator rho_0 times (Some U1s) (Some U2s) ;;
  let rhos := vec_soln sol in
  sol_2 <-- integrate integrator rho_0 times_2 (Some U1s_2) (Some U2s_2) ;;
  let rhos_2 := vec_soln sol_2 in
  sol_4 <-- integrate integrator rho_0 times_4 (Some U1s_4) (Some U2s_4) ;;
  let rhos_4 := vec_soln sol_4 in
  a4 <-- lift (py_last rhos_4) ;;
  a2 <-- lift (py_last rhos_2) ;;
  e1 <-- lift (np_sub a4 a2) ;;
  let l1 := np_log env (l1_norm e1) in
  b2 <-- lift (py_last rhos_2) ;;
  b1 <-- lift (py_last rhos) ;;
  e2 <-- lift (np_sub b2 b1) ;;
  let l2 := np_log env (l1_norm e2) in
  ret (PrimFloat.div (PrimFloat.sub l1 l2) (np_log env 2)).

End Estimator.

(** The same environment with another random source. *)
Definition with_randn (env : Env)
  (r : nat -> World env -> list float * World env) : Env :=
  {| World := World env; Rho := Rho env; IExn := IExn env;
     np_sum_flat := np_sum_flat env; np_log := np_log env; randn := r |}.

(** ** A reference realisation of the parameters

    Used to run the model on concrete inputs.  No theorem below depends on
    it: they hold for every reduction, logarithm, random source and
    integrator. *)
Module Ref.

(** Plain left-to-right accumulation from [0.]. *)
Definition sum (l : list float) : float := fold_left PrimFloat.add l 0%float.

(** [2 * (z + z^3/3 + z^5/5 + ...)], the first [terms] terms. *)
Fixpoint atanh_series (terms : nat) (z2 zk : float) (k : float) : float :=
  match terms with
  | O => 0%float
  | S t => (zk / k + atanh_series t z2 (zk * z2) (k + 2))%float
  end.

Definition float_of_Z (z : Z) : float :=
  match z with
  | Z0 => 0%float
  | Zpos _ => of_uint63 (Uint63.of_Z z)
  | Zneg _ => (- of_uint63 (Uint63.of_Z (- z)))%float
  end.

Definition ln2 : float := 0x1.62e42fefa39efp-1%float.

(** The values C99 fixes for [log] on zeros, negative numbers, infinity
    and NaN (numpy reports the first two with a RuntimeWarning and
    returns the value), and a series elsewhere. *)
Definition log (x : float) : float :=
  match classify x with
  | NaN => nan
  | PZero | NZero => neg_infinity
  | NInf | NNormal | NSubn => nan
  | PInf => infinity
  | PNormal | PSubn =>
      let (m, e) := Z.frexp x in
      let z := ((m - 1) / (m + 1))%float in
      (float_of_Z e * ln2 + 2 * atanh_series 20 (z * z) z 1)%float
  end.

(** The random source is a counter into a fixed table of samples: the
    world is the number of samples drawn so far. *)
Definition Drawn : Type := nat.

Definition sample (i : nat) : float :=
  nth (i mod 8)
    [0.25; -1.5; 0.75; 1.25; -0.5; 2; -0.125; 0.5]%float 0%float.

Definition draw (n : nat) (w : Drawn) : list float * Drawn :=
  (map sample (seq w n), w + n).

(** Explicit Euler-Maruyama for [dx = -x dt + dW] on a scalar state, the
    Wiener increment of a step being [sqrt(dt) * U1]. *)
Fixpoint euler_steps (x t : float) (ts us : list float) : list float :=
  match ts, us with
  | t' :: ts', u :: us' =>
      let dt := (t' - t)%float in
      let x' := (x - x * dt + sqrt dt * u)%float in
      x' :: euler_steps x' t' ts' us'
  | _, _ => []
  end.

Definition env : Env :=
  {| World := Drawn; Rho := float; IExn := nat;
     np_sum_flat := sum; np_log := log; randn := draw |}.

Definition euler : Integrator env :=
  fun rho_0 times U1s _ w =>
    match times, U1s with
    | A1 (t :: ts), Some (A1 us) =>
        (inl {| vec_soln := map A0 (rho_0 :: euler_steps rho_0 t ts us) |}, w)
    | _, _ => (inr 1, w)
    end.

(** An integrator that ignores the noise: the state never moves. *)
Definition frozen : Integrator env :=
  fun rho_0 times _ _ w =>
    match times with
    | A1 ts => (inl {| vec_soln := map (fun _ => A0 rho_0) ts |}, w)
    | _ => (inr 1, w)
    end.

End Ref.

(** ** Memory: buffers and views

    numpy arrays are objects over data buffers, and basic slicing returns
    a view: a new array object over the buffer of the array it slices.
    This second model of [double_increments] keeps the buffers, so that
    it can be said which arrays share memory and what is written. *)
Module Mem.

(** The buffers allocated so far; the address of a buffer is its
    position.  Nothing is ever freed. *)
Definition heap : Type := list (list float).

Inductive hshape : Type :=
| H0
| H1 (n : nat)
| H2 (nrows ncols : nat).

(** An array object: its buffer, where its first element is, how far
    apart the items of its first axis are, and its shape.  The columns
    of a matrix are adjacent. *)
Record harray : Type := {
  base : nat;
  offset : nat;
  step : nat;
  shape : hshape
}.

(** The array as a value. *)
Definition contents (h : heap) (a : harray) : ndarray :=
  let buf := nth (base a) h [] in
  match shape a with
  | H0 => A0 (nth (offset a) buf 0%float)
  | H1 n =>
      A1 (map (fun i => nth (offset a + i * step a) buf 0%float) (seq 0 n))
  | H2 r c =>
      A2 c (map (fun i => firstn c (skipn (offset a + i * step a) buf))
              (seq 0 r))
  end.

(** The number of items of [a[start::2]] when [a] has [n]. *)
Definition slice2_count (start n : nat) : nat := (n - start + 1) / 2.

(** [a[start::2]]: a view, nothing is allocated and nothing is copied. *)
Definition h_slice2 {E} (start : nat) (a : harray) : pyresult E harray :=
  let view (s : hshape) :=
    {| base := base a; offset := offset a + start * step a;
       step := 2 * step a; shape := s |} in
  match shape a with
  | H0 => Raise IndexError
  | H1 n => Return (view (H1 (slice2_count start n)))
  | H2 r c => Return (view (H2 (slice2_count start r) c))
  end.

(** A new array over a new buffer that holds [v]. *)
Definition alloc (h : heap) (v : ndarray) : harray * heap :=
  ({| base := length h; offset := 0;
      step := match v with A2 c _ => c | _ => 1 end;
      shape := match v with
               | A0 _ => H0
               | A1 xs => H1 (length xs)
               | A2 c rows => H2 (length rows) c
               end |},
   h ++ [flatten v]).

(** An operand of an arithmetic expression: an array, or a numpy scalar
    such as [np.sqrt(2)]. *)
Inductive operand : Type :=
| Arr (a : harray)
| Scalar (x : float).

Definition value (h : heap) (o : operand) : ndarray :=
  match o with
  | Arr a => contents h a
  | Scalar x => A0 x
  end.

Definition HM (E A : Type) : Type := heap -> pyresult E A * heap.

Definition hbind {E A B} (c : HM E A) (k : A -> HM E B) : HM E B :=
  fun h =>
    match c h with
    | (Return a, h') => k a h'
    | (Raise e, h') => (Raise e, h')
    end.
Definition hlift {E A} (r : pyresult E A) : HM E A := fun h => (r, h).

(** An elementwise operation reads its operands and puts the result in
    a new array. *)
Definition h_binop {E} (f : float -> float -> float) (a b : operand)
  : HM E harray :=
  fun h =>
    match np_binop f (value h a) (value h b) with
    | Return v => let (r, h') := alloc h v in (Return r, h')
    | Raise e => (Raise e, h)
    end.

Inductive hrefined : Type :=
| HPair (new_times new_U1s : harray)
| HTriple (new_times new_U1s new_U2s : harray).

Definition hr_times (r : hrefined) : harray :=
  match r with HPair t _ => t | HTriple t _ _ => t end.
Definition hr_U1s (r : hrefined) : harray :=
  match r with HPair _ u => u | HTriple _ u _ => u end.
Definition hr_U2s (r : hrefined) : option harray :=
  match r with HPair _ _ => None | HTriple _ _ v => Some v end.

Notation "x <~ c ;; k" := (hbind c (fun x => k))
  (at level 61, c at next level, right associativity).

Definition double_increments_h {E} (times U1s : harray)
  (U2s : option harray) : HM E hrefined :=
  new_times <~ hlift (h_slice2 0 times) ;;
  even_U1s <~ hlift (h_slice2 0 U1s) ;;
  odd_U1s <~ hlift (h_slice2 1 U1s) ;;
  s <~ h_binop PrimFloat.add (Arr even_U1s) (Arr odd_U1s) ;;
  new_U1s <~ h_binop PrimFloat.div (Arr s) (Scalar (PrimFloat.sqrt 2)) ;;
  match U2s with
  | None => hlift (Return (HPair new_times new_U1s))
  | Some U2s =>
      even_U2s <~ hlift (h_slice2 0 U2s) ;;
      odd_U2s <~ hlift (h_slice2 1 U2s) ;;
      d <~ h_binop PrimFloat.sub (Arr even_U1s) (Arr odd_U1s) ;;
      m <~ h_binop PrimFloat.mul (Scalar (PrimFloat.sqrt 3)) (Arr d) ;;
      s1 <~ h_binop PrimFloat.add (Arr m) (Arr even_U2s) ;;
      s2 <~ h_binop PrimFloat.add (Arr s1) (Arr odd_U2s) ;;
      new_U2s <~ h_binop PrimFloat.div (Arr s2)
                   (Scalar (PrimFloat.mul 2 (PrimFloat.sqrt 2))) ;;
      hlift (Return (HTriple new_times new_U1s new_U2s))
  end.

(** [a[i] = x] on a rank-1 array: the only way the caller's data could
    change.  [double_increments] has no such statement; a caller that
    holds one of its results may have. *)
Fixpoint set_nth {A : Type} (i : nat) (x : A) (l : list A) : list A :=
  match l, i with
  | [], _ => []
  | _ :: t, O => x :: t
  | y :: t, S j => y :: set_nth j x t
  end.

Definition h_setitem (h : heap) (a : harray) (i : nat) (x : float) : heap :=
  set_nth (base a)
    (set_nth (offset a + i * step a) x (nth (base a) h [])) h.

(** A rank-1 array that owns the whole of buffer [b], of [n] elements. *)
Definition whole1 (b n : nat) : harray :=
  {| base := b; offset := 0; step := 1; shape := H1 n |}.

End Mem.

Import Mem.

(** The scenario of the specification: eight intervals on [0, 1]. *)
Definition ts9 : list float :=
  [0; 0.125; 0.25; 0.375; 0.5; 0.625; 0.75; 0.875; 1]%float.
Definition us8 : list float := [1; 2; 3; 4; 5; 6; 7; 8]%float.
Definition vs8 : list float := [0.5; -1; 2; 0.25; -3; 1; 4; -2]%float.

(** * Properties *)

(** ** The examples of the specification *)

Example l1_norm_vector :
  l1_norm Ref.env (A1 [3; -4; 0]%float) = 7%float.
Proof. reflexivity. Qed.

Example l1_norm_matrix :
  l1_norm Ref.env (A2 2 [[1; -2]; [3; -4]]%float) = 10%float.
Proof. reflexivity. Qed.

Example scenario_refined_once :
  @double_increments unit (A1 ts9) (A1 us8) None
  = Return (Pair (A1 [0; 0.25; 0.5; 0.75; 1]%float)
              (A1 [((1 + 2) / sqrt 2)%float; ((3 + 4) / sqrt 2)%float;
                   ((5 + 6) / sqrt 2)%float; ((7 + 8) / sqrt 2)%float])).
Proof. reflexivity. Qed.

Example scenario_refined_twice :
  (r <- @double_increments unit (A1 ts9) (A1 us8) None ;;
   r4 <- double_increments (refined_times r) (refined_U1s r) None ;;
   Return (refined_times r4, length (flatten (refined_U1s r4))))%py
  = Return (A1 [0; 0.5; 1]%float, 2).
Proof. reflexivity. Qed.

Example log_of_zero : np_log Ref.env 0 = neg_infinity.
Proof. reflexivity. Qed.

(** ** Strided slices *)

Section Slices.

Context {A : Type}.

Lemma take_every_nth_error (s : nat) (l : list A) :
  forall skip k,
    nth_error (take_every (S s) skip l) k = nth_error l (skip + k * S s).
Proof.
  induction l as [|x t IH]; intros skip k.
  - simpl. destruct k; destruct (skip + _); reflexivity.
  - destruct skip as [|j].
    + destruct k as [|k']; [reflexivity|].
      cbn [take_every nth_error]. rewrite IH.
      replace (0 + S k' * S s) with (S (S s - 1 + k' * S s)) by lia.
      reflexivity.
    + cbn [take_every]. rewrite IH. reflexivity.
Qed.

(** The even and the odd positions split a list in two halves, the
    first one longer by one element when the length is odd. *)
Lemma take_every2_lengths (l : list A) :
  length (take_every 2 0 l) + length (take_every 2 1 l) = length l /\
  length (take_every 2 1 l) <= length (take_every 2 0 l) <=
    S (length (take_every 2 1 l)).
Proof.
  induction l as [|x t IH]; [simpl; lia|].
  change (take_every 2 0 (x :: t)) with (x :: take_every 2 1 t).
  change (take_every 2 1 (x :: t)) with (take_every 2 0 t).
  simpl length. lia.
Qed.

Lemma take_every2_even_length (l : list A) (m : nat) :
  length l = 2 * m ->
  length (take_every 2 0 l) = m /\ length (take_every 2 1 l) = m.
Proof. intros H. pose proof (take_every2_lengths l). lia. Qed.

Lemma take_every2_odd_length (l : list A) (m : nat) :
  length l = 2 * m + 1 ->
  length (take_every 2 0 l) = m + 1 /\ length (take_every 2 1 l) = m.
Proof. intros H. pose proof (take_every2_lengths l). lia. Qed.

(** Slicing a slice: [l[::2][::2]] is [l[::4]]. *)
Lemma take_every2_twice (l : list A) :
  take_every 2 0 (take_every 2 0 l) = take_every 4 0 l.
Proof.
  apply nth_error_ext; intros k.
  rewrite !take_every_nth_error. f_equal. lia.
Qed.

Lemma take_every4_length (l : list A) (q : nat) :
  length l = 4 * q + 1 -> length (take_every 4 0 l) = q + 1.
Proof.
  intros H. rewrite <- take_every2_twice.
  destruct (take_every2_odd_length l (2 * q)) as [H0 _]; [lia|].
  destruct (take_every2_odd_length (take_every 2 0 l) q) as [H1 _]; lia.
Qed.

End Slices.

(** ** Broadcasting of equal extents *)

Section Zip.

Context {A B C : Type} (f : A -> B -> C).

Lemma zip_with_length (xs : list A) (ys : list B) :
  length (zip_with f xs ys) = Nat.min (length xs) (length ys).
Proof.
  revert ys; induction xs as [|x xs IH]; intros [|y ys]; simpl; auto.
Qed.

Lemma zip_with_nth_error (xs : list A) (ys : list B) (k : nat) :
  nth_error (zip_with f xs ys) k =
    match nth_error xs k, nth_error ys k with
    | Some x, Some y => Some (f x y)
    | _, _ => None
    end.
Proof.
  revert ys k; induction xs as [|x xs IH]; intros [|y ys] [|k]; simpl; auto.
  - destruct (nth_error xs k); reflexivity.
Qed.

Lemma bcast_same_length (xs : list A) (ys : list B) :
  length xs = length ys -> bcast f xs ys = Some (zip_with f xs ys).
Proof. intros H. unfold bcast. rewrite H, Nat.eqb_refl. reflexivity. Qed.

(** Extents that differ and are both other than 1 do not broadcast. *)
Lemma bcast_mismatch (xs : list A) (ys : list B) :
  length xs <> length ys -> length xs <> 1 -> length ys <> 1 ->
  bcast f xs ys = None.
Proof.
  intros Hne Hx Hy. unfold bcast.
  destruct (Nat.eqb_spec (length xs) (length ys)) as [E|_]; [contradiction|].
  destruct xs as [|x [|x' xs]]; destruct ys as [|y [|y' ys]];
    simpl in *; try reflexivity; congruence.
Qed.

End Zip.

(** ** The refiner on rank-1 operands *)

Section Refiner1D.

Context {E : Type}.

Local Open Scope float_scope.

Lemma merge_U1_length (U1s : list float) (m : nat) :
  length U1s = (2 * m)%nat -> length (merge_U1 U1s) = m.
Proof.
  intros H. unfold merge_U1. rewrite length_map, zip_with_length.
  destruct (take_every2_even_length U1s m H). lia.
Qed.

Lemma merge_U2_length (U1s U2s : list float) (m : nat) :
  length U1s = (2 * m)%nat -> length U2s = (2 * m)%nat ->
  length (merge_U2 U1s U2s) = m.
Proof.
  intros H1 H2. unfold merge_U2.
  rewrite length_map, !zip_with_length, length_map, zip_with_length.
  destruct (take_every2_even_length U1s m H1).
  destruct (take_every2_even_length U2s m H2). lia.
Qed.

Lemma nth_error_in_range (l : list float) (k : nat) :
  (k < length l)%nat -> nth_error l k = Some (nth k l 0).
Proof. intros H. apply nth_error_nth'. exact H. Qed.

(** [U1'[k] = (U1[2k] + U1[2k+1]) / sqrt(2)] *)
Lemma merge_U1_nth (U1s : list float) (m k : nat) :
  length U1s = (2 * m)%nat -> (k < m)%nat ->
  nth k (merge_U1 U1s) 0 =
    (nth (2 * k) U1s 0 + nth (2 * k + 1) U1s 0) / sqrt 2.
Proof.
  intros H Hk. apply nth_error_nth. unfold merge_U1.
  rewrite nth_error_map, zip_with_nth_error, !take_every_nth_error.
  replace (0 + k * 2)%nat with (2 * k)%nat by lia.
  replace (1 + k * 2)%nat with (2 * k + 1)%nat by lia.
  rewrite !nth_error_in_range by lia. reflexivity.
Qed.

(** [U2'[k] = (sqrt(3) * (U1[2k] - U1[2k+1]) + U2[2k] + U2[2k+1]) / (2*sqrt(2))] *)
Lemma merge_U2_nth (U1s U2s : list float) (m k : nat) :
  length U1s = (2 * m)%nat -> length U2s = (2 * m)%nat -> (k < m)%nat ->
  nth k (merge_U2 U1s U2s) 0 =
    (sqrt 3 * (nth (2 * k) U1s 0 - nth (2 * k + 1) U1s 0)
     + nth (2 * k) U2s 0 + nth (2 * k + 1) U2s 0) / (2 * sqrt 2).
Proof.
  intros H1 H2 Hk. apply nth_error_nth. unfold merge_U2.
  rewrite nth_error_map, !zip_with_nth_error, nth_error_map,
    zip_with_nth_error, !take_every_nth_error.
  replace (0 + k * 2)%nat with (2 * k)%nat by lia.
  replace (1 + k * 2)%nat with (2 * k + 1)%nat by lia.
  rewrite !nth_error_in_range by lia. reflexivity.
Qed.

(** On a rank-1 [U1s] of even length the two slices have the same
    extent, nothing is broadcast and nothing is raised. *)
Lemma double_increments_1d (ts U1s : list float) (m : nat) :
  length U1s = (2 * m)%nat ->
  @double_increments E (A1 ts) (A1 U1s) None =
    Return (Pair (A1 (take_every 2 0 ts)) (A1 (merge_U1 U1s))).
Proof.
  intros H. destruct (take_every2_even_length U1s m H) as [He Ho].
  unfold double_increments, np_add, np_div. cbn [np_slice2 rbind np_binop].
  rewrite bcast_same_length by congruence. reflexivity.
Qed.

Lemma double_increments_1d_U2 (ts U1s U2s : list float) (m : nat) :
  length U1s = (2 * m)%nat -> length U2s = (2 * m)%nat ->
  @double_increments E (A1 ts) (A1 U1s) (Some (A1 U2s)) =
    Return (Triple (A1 (take_every 2 0 ts)) (A1 (merge_U1 U1s))
              (A1 (merge_U2 U1s U2s))).
Proof.
  intros H1 H2.
  destruct (take_every2_even_length U1s m H1) as [He Ho].
  destruct (take_every2_even_length U2s m H2) as [He2 Ho2].
  unfold double_increments, np_add, np_div, np_sub, np_mul.
  cbn [np_slice2 rbind np_binop].
  rewrite bcast_same_length by congruence. cbn [rbind np_binop].
  rewrite bcast_same_length by congruence. cbn [rbind np_binop].
  rewrite bcast_same_length
    by (rewrite length_map, zip_with_length; lia).
  cbn [rbind np_binop].
  rewrite bcast_same_length
    by (rewrite zip_with_length, length_map, zip_with_length; lia).
  reflexivity.
Qed.

(** Whatever [U2s] is, a result has the [U1s] of the call without it. *)
Lemma double_increments_U1s_indep (times U1s : ndarray) (U2s : option ndarray)
  (r : refined) :
  @double_increments E times U1s U2s = Return r ->
  exists r0, @double_increments E times U1s None = Return r0 /\
             refined_times r = refined_times r0 /\
             refined_U1s r = refined_U1s r0.
Proof.
  unfold double_increments.
  destruct (np_slice2 0 times) as [nt|]; [|discriminate].
  destruct (np_slice2 0 U1s) as [ev|]; [|discriminate].
  destruct (np_slice2 1 U1s) as [od|]; [|discriminate].
  cbn [rbind].
  destruct (np_add ev od) as [s|]; [|discriminate]. cbn [rbind].
  destruct (np_div s _) as [nu|]; [|discriminate]. cbn [rbind].
  intros H. exists (Pair nt nu). split; [reflexivity|].
  destruct U2s as [u2|]; [|injection H as <-; split; reflexivity].
  repeat match type of H with
         | rbind ?c _ = _ => destruct c; [cbn [rbind] in H|discriminate]
         end.
  injection H as <-. split; reflexivity.
Qed.

End Refiner1D.

(** ** Claims about the refiner on rank-1 grids *)

Lemma even_half (n : nat) : Nat.even n = true -> n = 2 * (n / 2).
Proof.
  intros H. apply Nat.even_spec in H. destruct H as [m ->].
  rewrite (Nat.mul_comm 2 m), Nat.div_mul by discriminate. lia.
Qed.

Lemma quarter (n : nat) : n mod 4 = 0 -> n = 4 * (n / 4).
Proof. intros H. pose proof (Nat.div_mod_eq n 4). lia. Qed.

Lemma quarter_half (n : nat) : n mod 4 = 0 -> n / 2 = 2 * (n / 4).
Proof.
  intros H. pose proof (quarter n H) as Hq. rewrite Hq at 1.
  replace (4 * (n / 4)) with ((2 * (n / 4)) * 2) by lia.
  apply Nat.div_mul. discriminate.
Qed.

Lemma quarter_even (n : nat) : n mod 4 = 0 -> Nat.even n = true.
Proof.
  intros H. apply Nat.even_spec. exists (2 * (n / 4)).
  pose proof (quarter n H). lia.
Qed.

(** C2: for every even [n], every rank-1 grid of [n + 1] times and every
    rank-1 [U1s] of [n] increments, [double_increments] returns, and the
    [U1s] it returns (the same whether or not [U2s] is passed) has length
    [n / 2] and holds [(U1s[2k] + U1s[2k+1]) / sqrt(2)] at every index
    [k < n / 2]. *)
Theorem C2_refined_U1s (E : Type) (n : nat) (ts U1s : list float) :
  Nat.even n = true -> length ts = n + 1 -> length U1s = n ->
  exists new_U1s : list float,
    @double_increments E (A1 ts) (A1 U1s) None
      = Return (Pair (A1 (take_every 2 0 ts)) (A1 new_U1s)) /\
    (forall U2s r, @double_increments E (A1 ts) (A1 U1s) U2s = Return r ->
                   refined_U1s r = A1 new_U1s) /\
    length new_U1s = n / 2 /\
    forall k, k < n / 2 ->
      nth k new_U1s 0%float =
        ((nth (2 * k) U1s 0 + nth (2 * k + 1) U1s 0) / sqrt 2)%float.
Proof.
  intros Hev _ HU. pose proof (even_half n Hev) as Hn.
  assert (HU' : length U1s = 2 * (n / 2)) by congruence.
  exists (merge_U1 U1s). repeat split.
  - exact (double_increments_1d ts U1s _ HU').
  - intros U2s r Hr.
    destruct (double_increments_U1s_indep _ _ _ _ Hr) as (r0 & H0 & _ & Hu).
    rewrite (double_increments_1d ts U1s _ HU') in H0.
    injection H0 as <-. exact Hu.
  - exact (merge_U1_length U1s _ HU').
  - intros k Hk. exact (merge_U1_nth U1s _ k HU' Hk).
Qed.

Lemma C2_refined_U1s_witness :
  exists new_U1s : list float,
    @double_increments unit (A1 ts9) (A1 us8) None
      = Return (Pair (A1 (take_every 2 0 ts9)) (A1 new_U1s)) /\
    length new_U1s = 4 /\
    nth 3 new_U1s 0%float = ((7 + 8) / sqrt 2)%float.
Proof.
  destruct (C2_refined_U1s unit 8 ts9 us8 eq_refl eq_refl eq_refl)
    as (v & Hrun & _ & Hlen & Hnth).
  exists v. split; [exact Hrun|]. split; [exact Hlen|].
  apply (Hnth 3). vm_compute. lia.
Defined.

(** C3: for every even [n] and rank-1 [U1s], [U2s] of length [n],
    [double_increments] called with [U2s] returns a triple whose [U2s] has
    length [n / 2] and holds
    [(sqrt(3) * (U1s[2k] - U1s[2k+1]) + U2s[2k] + U2s[2k+1]) / (2*sqrt(2))]
    at every index [k < n / 2]; called without [U2s] it returns the pair of
    the new times and the new [U1s] only. *)
Theorem C3_refined_U2s (E : Type) (n : nat) (ts U1s U2s : list float) :
  Nat.even n = true -> length U1s = n -> length U2s = n ->
  (exists new_U1s new_U2s : list float,
     @double_increments E (A1 ts) (A1 U1s) (Some (A1 U2s))
       = Return (Triple (A1 (take_every 2 0 ts)) (A1 new_U1s) (A1 new_U2s)) /\
     length new_U2s = n / 2 /\
     forall k, k < n / 2 ->
       nth k new_U2s 0%float =
         ((sqrt 3 * (nth (2 * k) U1s 0 - nth (2 * k + 1) U1s 0)
           + nth (2 * k) U2s 0 + nth (2 * k + 1) U2s 0) / (2 * sqrt 2))%float)
  /\
  (exists r, @double_increments E (A1 ts) (A1 U1s) None = Return r /\
             refined_U2s r = None).
Proof.
  intros Hev HU1 HU2. pose proof (even_half n Hev) as Hn.
  assert (H1 : length U1s = 2 * (n / 2)) by congruence.
  assert (H2 : length U2s = 2 * (n / 2)) by congruence.
  split.
  - exists (merge_U1 U1s), (merge_U2 U1s U2s). repeat split.
    + exact (double_increments_1d_U2 ts U1s U2s _ H1 H2).
    + exact (merge_U2_length U1s U2s _ H1 H2).
    + intros k Hk. exact (merge_U2_nth U1s U2s _ k H1 H2 Hk).
  - eexists. split; [exact (double_increments_1d ts U1s _ H1)|reflexivity].
Qed.

Lemma C3_refined_U2s_witness :
  exists new_U1s new_U2s : list float,
    @double_increments unit (A1 ts9) (A1 us8) (Some (A1 vs8))
      = Return (Triple (A1 (take_every 2 0 ts9)) (A1 new_U1s) (A1 new_U2s)) /\
    length new_U2s = 4 /\
    nth 0 new_U2s 0%float = ((sqrt 3 * (1 - 2) + 0.5 + -1) / (2 * sqrt 2))%float.
Proof.
  destruct (C3_refined_U2s unit 8 ts9 us8 vs8 eq_refl eq_refl eq_refl)
    as [(v1 & v2 & Hrun & Hlen & Hnth) _].
  exists v1, v2. split; [exact Hrun|]. split; [exact Hlen|].
  apply (Hnth 0). vm_compute. lia.
Defined.

(** Both shapes of call at once: [U2s] omitted, or a rank-1 [U2s] as long
    as [U1s]. *)
Lemma double_increments_1d_opt {E : Type} (ts U1s : list float)
  (U2s : option (list float)) (m : nat) :
  length U1s = 2 * m -> (forall u, U2s = Some u -> length u = 2 * m) ->
  @double_increments E (A1 ts) (A1 U1s) (option_map A1 U2s) =
    Return
      match U2s with
      | None => Pair (A1 (take_every 2 0 ts)) (A1 (merge_U1 U1s))
      | Some u => Triple (A1 (take_every 2 0 ts)) (A1 (merge_U1 U1s))
                    (A1 (merge_U2 U1s u))
      end.
Proof.
  intros H1 H2. destruct U2s as [u|]; cbn [option_map].
  - apply (double_increments_1d_U2 ts U1s u m H1). apply H2. reflexivity.
  - apply (double_increments_1d ts U1s m H1).
Qed.

(** C4, the refinement length law: for every even [n], on a rank-1 grid of
    [n + 1] times and [n] increments ([U2s] omitted or of length [n])
    [double_increments] returns the grid [times[::2]] of [n / 2 + 1] times,
    whose element [k] is [times[2k]], and [n / 2] increments; when [n] is
    divisible by 4, applying it to that result returns the grid
    [times[::4]] of [n / 4 + 1] times, whose element [k] is [times[4k]],
    and [n / 4] increments. *)
Theorem C4_refinement_lengths (E : Type) (n : nat) (ts U1s : list float)
  (U2s : option (list float)) :
  Nat.even n = true -> length ts = n + 1 -> length U1s = n ->
  (forall u, U2s = Some u -> length u = n) ->
  exists (r : refined) (times_2 U1s_2 : list float),
    @double_increments E (A1 ts) (A1 U1s) (option_map A1 U2s) = Return r /\
    refined_times r = A1 times_2 /\ refined_U1s r = A1 U1s_2 /\
    times_2 = take_every 2 0 ts /\
    (forall k, nth_error times_2 k = nth_error ts (2 * k)) /\
    length times_2 = n / 2 + 1 /\ length U1s_2 = n / 2 /\
    (forall u, U2s = Some u ->
       exists U2s_2, refined_U2s r = Some (A1 U2s_2) /\ length U2s_2 = n / 2) /\
    (n mod 4 = 0 ->
     exists (r4 : refined) (times_4 U1s_4 : list float),
       @double_increments E (refined_times r) (refined_U1s r) (refined_U2s r)
         = Return r4 /\
       refined_times r4 = A1 times_4 /\ refined_U1s r4 = A1 U1s_4 /\
       times_4 = take_every 4 0 ts /\
       (forall k, nth_error times_4 k = nth_error ts (4 * k)) /\
       length times_4 = n / 4 + 1 /\ length U1s_4 = n / 4 /\
       (forall u, U2s = Some u ->
          exists U2s_4, refined_U2s r4 = Some (A1 U2s_4) /\
                        length U2s_4 = n / 4)).
Proof.
  intros Hev Hts HU1 HU2. pose proof (even_half n Hev) as Hn.
  assert (H1 : length U1s = 2 * (n / 2)) by congruence.
  assert (H2 : forall u, U2s = Some u -> length u = 2 * (n / 2)).
  { intros u Hu. rewrite (HU2 u Hu). exact Hn. }
  pose proof (@double_increments_1d_opt E ts U1s U2s _ H1 H2) as Hrun.
  eexists _, (take_every 2 0 ts), (merge_U1 U1s).
  split; [exact Hrun|].
  split; [destruct U2s; reflexivity|].
  split; [destruct U2s; reflexivity|].
  split; [reflexivity|].
  split; [intros k; rewrite take_every_nth_error; f_equal; lia|].
  split; [apply (take_every2_odd_length ts (n / 2)); lia|].
  split; [exact (merge_U1_length U1s _ H1)|].
  split.
  { intros u ->. exists (merge_U2 U1s u). split; [reflexivity|].
    apply merge_U2_length; [exact H1|]. apply H2. reflexivity. }
  intros H4. pose proof (quarter_half n H4) as Hq.
  assert (L1 : length (merge_U1 U1s) = 2 * (n / 4)).
  { rewrite (merge_U1_length U1s _ H1). exact Hq. }
  assert (L2 : forall v, option_map (merge_U2 U1s) U2s = Some v ->
                         length v = 2 * (n / 4)).
  { intros v Hv. destruct U2s as [u|]; [|discriminate].
    injection Hv as <-. rewrite (merge_U2_length U1s u (n / 2)); auto. }
  pose proof (@double_increments_1d_opt E (take_every 2 0 ts) (merge_U1 U1s)
                (option_map (merge_U2 U1s) U2s) _ L1 L2) as Hrun4.
  rewrite take_every2_twice in Hrun4.
  exists (match option_map (merge_U2 U1s) U2s with
          | None => Pair (A1 (take_every 4 0 ts)) (A1 (merge_U1 (merge_U1 U1s)))
          | Some v => Triple (A1 (take_every 4 0 ts))
                        (A1 (merge_U1 (merge_U1 U1s)))
                        (A1 (merge_U2 (merge_U1 U1s) v))
          end), (take_every 4 0 ts), (merge_U1 (merge_U1 U1s)).
  split; [destruct U2s; exact Hrun4|].
  split; [destruct U2s; reflexivity|].
  split; [destruct U2s; reflexivity|].
  split; [reflexivity|].
  split; [intros k; rewrite take_every_nth_error; f_equal; lia|].
  split; [apply take_every4_length; pose proof (quarter n H4); lia|].
  split; [exact (merge_U1_length _ _ L1)|].
  intros u ->. cbn [option_map refined_U2s]. eexists. split; [reflexivity|].
  apply merge_U2_length; [exact L1|]. apply L2. reflexivity.
Qed.

Lemma C4_refinement_lengths_witness :
  exists r r4 : refined,
    @double_increments unit (A1 ts9) (A1 us8) (Some (A1 vs8)) = Return r /\
    @double_increments unit (refined_times r) (refined_U1s r) (refined_U2s r)
      = Return r4 /\
    refined_times r = A1 [0; 0.25; 0.5; 0.75; 1]%float /\
    refined_times r4 = A1 [0; 0.5; 1]%float.
Proof.
  destruct (C4_refinement_lengths unit 8 ts9 us8 (Some vs8)
              eq_refl eq_refl eq_refl)
    as (r & t2 & u2 & Hrun & Ht2 & _ & -> & _ & _ & _ & _ & H4).
  { intros u Hu. injection Hu as <-. reflexivity. }
  destruct (H4 eq_refl) as (r4 & t4 & u4 & Hrun4 & Ht4 & _ & -> & _).
  exists r, r4. repeat split; assumption.
Defined.

(** ** Odd numbers of increments *)

(** The slices [U1s[::2]] and [U1s[1::2]] of an odd-length [U1s] differ in
    extent by one: from five increments on they do not broadcast. *)
Lemma double_increments_odd_raises {E : Type} (ts U1s : list float)
  (U2s : option ndarray) (m : nat) :
  length U1s = 2 * m + 1 -> 2 <= m ->
  @double_increments E (A1 ts) (A1 U1s) U2s = Raise BroadcastError.
Proof.
  intros H Hm. destruct (take_every2_odd_length U1s m H) as [He Ho].
  unfold double_increments, np_add. cbn [np_slice2 rbind np_binop].
  rewrite bcast_mismatch by lia. reflexivity.
Qed.

(** C8, as the code has it: for a rank-1 [U1s] of odd length [n],
    [double_increments] raises the broadcasting [ValueError] whenever
    [5 <= n], with or without [U2s]; it returns without error for [n = 1],
    with no increment at all, and for [n = 3], with the two values
    [(U1s[0] + U1s[1]) / sqrt(2)] and [(U1s[2] + U1s[1]) / sqrt(2)]. *)
Theorem C8_odd_lengths (E : Type) (n : nat) (ts U1s : list float) :
  Nat.odd n = true -> length U1s = n ->
  (5 <= n ->
   forall U2s, @double_increments E (A1 ts) (A1 U1s) U2s = Raise BroadcastError)
  /\
  (n = 1 ->
   @double_increments E (A1 ts) (A1 U1s) None
     = Return (Pair (A1 (take_every 2 0 ts)) (A1 [])))
  /\
  (n = 3 ->
   @double_increments E (A1 ts) (A1 U1s) None
     = Return (Pair (A1 (take_every 2 0 ts))
                 (A1 [((nth 0 U1s 0 + nth 1 U1s 0) / sqrt 2)%float;
                      ((nth 2 U1s 0 + nth 1 U1s 0) / sqrt 2)%float]))).
Proof.
  intros Hodd HU. split; [|split].
  - intros H5 U2s. apply Nat.odd_spec in Hodd. destruct Hodd as [m Hm].
    apply (double_increments_odd_raises ts U1s U2s m); lia.
  - intros ->. destruct U1s as [|a [|b l]]; try discriminate. reflexivity.
  - intros ->. destruct U1s as [|a [|b [|c [|d l]]]]; try discriminate.
    reflexivity.
Qed.

Lemma C8_odd_lengths_witness :
  @double_increments unit (A1 ts9) (A1 [1; 2; 3; 4; 5; 6; 7]%float) None
    = Raise BroadcastError /\
  @double_increments unit (A1 ts9) (A1 [1; 2; 3]%float) None
    = Return (Pair (A1 (take_every 2 0 ts9))
                (A1 [((1 + 2) / sqrt 2)%float; ((3 + 2) / sqrt 2)%float])).
Proof.
  split.
  - apply (C8_odd_lengths unit 7 ts9 [1; 2; 3; 4; 5; 6; 7]%float
             eq_refl eq_refl).
    vm_compute. lia.
  - apply (C8_odd_lengths unit 3 ts9 [1; 2; 3]%float eq_refl eq_refl).
    reflexivity.
Defined.

(** C8 as stated fails: five increments on a grid of six times raise. *)
Lemma C8_counterexample :
  @double_increments unit (A1 [0; 1; 2; 3; 4; 5]%float)
    (A1 [1; 2; 3; 4; 5]%float) None
  = Raise BroadcastError.
Proof. reflexivity. Qed.

(** ** Batches *)

Lemma take_every_Forall {A : Type} (P : A -> Prop) (step : nat) (l : list A) :
  Forall P l -> forall skip, Forall P (take_every step skip l).
Proof.
  induction 1 as [|x t Hx Ht IH]; intros skip; [constructor|].
  destruct skip; cbn [take_every]; auto.
Qed.

Lemma zip_with_brow (f : float -> float -> float) (c : nat)
  (r1 r2 : list (list float)) :
  Forall (fun r => length r = c) r1 -> Forall (fun r => length r = c) r2 ->
  zip_with (brow f) r1 r2 = zip_with (zip_with f) r1 r2.
Proof.
  intros H1; revert r2; induction H1 as [|a r1 Ha H1 IH]; intros r2 H2.
  - reflexivity.
  - destruct H2 as [|b r2 Hb H2]; [reflexivity|].
    cbn [zip_with]. rewrite (IH r2 H2). f_equal.
    unfold brow. rewrite bcast_same_length by congruence. reflexivity.
Qed.

(** On a batch of shape [(N, c)] the slices are taken along the first
    axis: it is rows [2i] and [2i + 1] that are added, column by column.
    With [N = 2 M] the result has shape [(M, c)]. *)
Lemma double_increments_batch {E : Type} (ts : list float) (c : nat)
  (rows : list (list float)) (M : nat) :
  Forall (fun r => length r = c) rows -> length rows = 2 * M ->
  @double_increments E (A1 ts) (A2 c rows) None =
    Return
      (Pair (A1 (take_every 2 0 ts))
         (A2 c (map (map (fun s => PrimFloat.div s (PrimFloat.sqrt 2)))
                  (zip_with (zip_with PrimFloat.add)
                     (take_every 2 0 rows) (take_every 2 1 rows))))).
Proof.
  intros Hwf HN. destruct (take_every2_even_length rows M HN) as [He Ho].
  unfold double_increments, np_add, np_div.
  cbn [np_slice2 rbind np_binop]. unfold mat_binop, bdim.
  rewrite Nat.eqb_refl, bcast_same_length by congruence.
  rewrite (zip_with_brow _ c) by (apply take_every_Forall; exact Hwf).
  reflexivity.
Qed.

(** C6 at a batch of two trajectories over two intervals: the code adds
    the first trajectory to the second one and returns one row of two
    values, where the docstring's reading ([rowwise_U1]: every row merged
    on its own) gives two rows of one value. *)
Theorem C6_batch_merges_rows :
  let times := A1 [0; 1; 2]%float in
  let U1s := [[1; 2]; [3; 4]]%float in
  @double_increments unit times (A2 2 U1s) None
    = Return (Pair (A1 [0; 2]%float)
                (A2 2 [[((1 + 3) / sqrt 2)%float; ((2 + 4) / sqrt 2)%float]]))
  /\ rowwise_U1 U1s = [[((1 + 2) / sqrt 2)%float]; [((3 + 4) / sqrt 2)%float]]
  /\ @double_increments unit times (A2 2 U1s) None
     <> Return (Pair (A1 [0; 2]%float) (A2 1 (rowwise_U1 U1s))).
Proof.
  cbv zeta. split; [reflexivity|]. split; [reflexivity|].
  vm_compute. intros H. discriminate H.
Qed.

(** ** Non-finite results *)

Lemma not_finite_spec (x : float) :
  not_finite x = true <->
  (exists s, Prim2SF x = S754_infinity s) \/ Prim2SF x = S754_nan.
Proof.
  unfold not_finite. rewrite classify_spec.
  destruct (Prim2SF x) as [s|s| |s m e]; cbn.
  - destruct s; (split; [discriminate| intros [[? ?]|?]; discriminate]).
  - destruct s; (split; [eauto| reflexivity]).
  - split; eauto.
  - destruct s;
      match goal with |- context [if ?c then _ else _] => destruct c end;
      (split; [discriminate| intros [[? ?]|?]; discriminate]).
Qed.

(** Nothing subtracted from, and nothing that divides, an infinity gives a
    finite number. *)
Lemma not_finite_sub_l (x y : float) :
  not_finite x = true -> not_finite (x - y) = true.
Proof.
  rewrite !not_finite_spec, sub_spec. unfold SF64sub.
  intros [[s ->]| ->]; destruct (Prim2SF y) as [sy|sy| |sy m e]; cbn;
    try destruct s; try destruct sy; eauto.
Qed.

Lemma not_finite_sub_r (x y : float) :
  not_finite y = true -> not_finite (x - y) = true.
Proof.
  rewrite !not_finite_spec, sub_spec. unfold SF64sub.
  intros [[s ->]| ->]; destruct (Prim2SF x) as [sx|sx| |sx m e]; cbn;
    try destruct s; try destruct sx; eauto.
Qed.

Lemma not_finite_div (x z : float) :
  not_finite x = true -> not_finite (x / z) = true.
Proof.
  rewrite !not_finite_spec, div_spec. unfold SF64div.
  intros [[s ->]| ->]; destruct (Prim2SF z) as [sz|sz| |sz m e]; cbn; eauto.
Qed.

(** ** The estimator *)

Section EstimatorFacts.

Variable env : Env.

(** The norm is numpy's sum over the absolute values of all the scalar
    components. *)
Lemma l1_norm_flat (vec : ndarray) :
  l1_norm env vec = np_sum_flat env (map PrimFloat.abs (flatten vec)).
Proof.
  unfold l1_norm, np_sum. f_equal.
  destruct vec as [x|xs|c rows]; cbn [np_abs flatten]; try reflexivity.
  symmetry. apply concat_map.
Qed.

(** One run of [calc_rate] in which nothing raises. *)
Lemma calc_rate_run (integrator : Integrator env) (rho_0 : Rho env)
  (times U1s U2s times_2 U1s_2 U2s_2 times_4 U1s_4 U2s_4 : ndarray)
  (U1opt U2opt : option ndarray) (len : Z)
  (w wa wb w1 w2 w3 : World env) (sol sol_2 sol_4 : Solution)
  (fine mid coarse e1 e2 : ndarray) :
  @py_len (IExn env) times = Return len ->
  or_randn env U1opt (len - 1)%Z w = (Return U1s, wa) ->
  or_randn env U2opt (len - 1)%Z wa = (Return U2s, wb) ->
  @double_increments (IExn env) times U1s (Some U2s)
    = Return (Triple times_2 U1s_2 U2s_2) ->
  @double_increments (IExn env) times_2 U1s_2 (Some U2s_2)
    = Return (Triple times_4 U1s_4 U2s_4) ->
  integrator rho_0 times (Some U1s) (Some U2s) wb = (inl sol, w1) ->
  integrator rho_0 times_2 (Some U1s_2) (Some U2s_2) w1 = (inl sol_2, w2) ->
  integrator rho_0 times_4 (Some U1s_4) (Some U2s_4) w2 = (inl sol_4, w3) ->
  @py_last (IExn env) _ (vec_soln sol) = Return fine ->
  @py_last (IExn env) _ (vec_soln sol_2) = Return mid ->
  @py_last (IExn env) _ (vec_soln sol_4) = Return coarse ->
  @np_sub (IExn env) coarse mid = Return e1 ->
  @np_sub (IExn env) mid fine = Return e2 ->
  calc_rate env integrator rho_0 times U1opt U2opt w =
    (Return ((np_log env (l1_norm env e1) - np_log env (l1_norm env e2)) / np_log env 2)%float,
     w3).
Proof.
  intros Hlen HU1 HU2 Hr2 Hr4 Hi Hi2 Hi4 Hf Hm Hc He1 He2.
  unfold calc_rate, bind, lift, integrate, ret.
  rewrite Hlen, HU1, HU2, Hr2. cbn [unpack3].
  rewrite Hr4. cbn [unpack3].
  rewrite Hi, Hi2, Hi4, Hc, Hm, He1, Hf, He2. reflexivity.
Qed.

(** [seq[-1]] of a sequence that ends with [x] is [x]. *)
Lemma py_last_app {E A : Type} (init : list A) (x : A) :
  @py_last E A (init ++ [x]) = Return x.
Proof. unfold py_last. rewrite rev_unit. reflexivity. Qed.

(** C1: on a rank-1 grid of [n + 1] times with [n] divisible by 4 and
    [n] increments in each of [U1s] and [U2s] (supplied or drawn), when
    the integrator returns solutions on the grids [times], [times[::2]]
    and [times[::4]] with the increments merged once and twice, always
    from the same [rho_0], whose sequences of states end with [fine],
    [mid] and [coarse], and these final states can be subtracted,
    [calc_rate] returns [(log(d1) - log(d2)) / log(2)] where [d1] is the
    sum of the absolute values of the components of [coarse - mid] and
    [d2] that of [mid - fine]. *)
Theorem C1_rate_formula (integrator : Integrator env) (rho_0 : Rho env) (n : nat)
  (ts U1s U2s : list float) (U1opt U2opt : option ndarray)
  (w wa wb w1 w2 w3 : World env) (sol sol_2 sol_4 : Solution)
  (init init_2 init_4 : list ndarray)
  (fine mid coarse e1 e2 : ndarray) :
  n mod 4 = 0 -> length ts = n + 1 ->
  length U1s = n -> length U2s = n ->
  or_randn env U1opt (Z.of_nat n) w = (Return (A1 U1s), wa) ->
  or_randn env U2opt (Z.of_nat n) wa = (Return (A1 U2s), wb) ->
  integrator rho_0 (A1 ts) (Some (A1 U1s)) (Some (A1 U2s)) wb
    = (inl sol, w1) ->
  integrator rho_0 (A1 (take_every 2 0 ts))
      (Some (A1 (merge_U1 U1s))) (Some (A1 (merge_U2 U1s U2s))) w1
    = (inl sol_2, w2) ->
  integrator rho_0 (A1 (take_every 4 0 ts))
      (Some (A1 (merge_U1 (merge_U1 U1s))))
      (Some (A1 (merge_U2 (merge_U1 U1s) (merge_U2 U1s U2s)))) w2
    = (inl sol_4, w3) ->
  vec_soln sol = init ++ [fine] ->
  vec_soln sol_2 = init_2 ++ [mid] ->
  vec_soln sol_4 = init_4 ++ [coarse] ->
  @np_sub (IExn env) coarse mid = Return e1 ->
  @np_sub (IExn env) mid fine = Return e2 ->
  let d1 := np_sum_flat env (map PrimFloat.abs (flatten e1)) in
  let d2 := np_sum_flat env (map PrimFloat.abs (flatten e2)) in
  calc_rate env integrator rho_0 (A1 ts) U1opt U2opt w =
    (Return ((np_log env d1 - np_log env d2) / np_log env 2)%float, w3).
Proof.
  intros H4 Hts HU1 HU2 Hd1 Hd2 Hi Hi2 Hi4 Hf Hm Hc He1 He2 d1 d2.
  subst d1 d2. rewrite <- !l1_norm_flat.
  pose proof (quarter_half n H4) as Hq.
  pose proof (even_half n (quarter_even n H4)) as Hn.
  assert (L1 : length U1s = 2 * (n / 2)) by congruence.
  assert (L2 : length U2s = 2 * (n / 2)) by congruence.
  eapply (calc_rate_run integrator rho_0 (A1 ts) (A1 U1s) (A1 U2s)).
  - reflexivity.
  - cbn [length]. replace (Z.of_nat (length ts) - 1)%Z with (Z.of_nat n) by lia.
    exact Hd1.
  - replace (Z.of_nat (length ts) - 1)%Z with (Z.of_nat n) by lia.
    exact Hd2.
  - exact (double_increments_1d_U2 ts U1s U2s _ L1 L2).
  - apply (double_increments_1d_U2 _ _ _ (n / 4)).
    + rewrite (merge_U1_length U1s _ L1). exact Hq.
    + rewrite (merge_U2_length U1s U2s _ L1 L2). exact Hq.
  - exact Hi.
  - exact Hi2.
  - rewrite take_every2_twice. exact Hi4.
  - rewrite Hf. apply py_last_app.
  - rewrite Hm. apply py_last_app.
  - rewrite Hc. apply py_last_app.
  - exact He1.
  - exact He2.
Qed.

End EstimatorFacts.

(** Euler-Maruyama on the scenario's grid with [U2s] drawn: the final
    states of the three runs are [9.975...], [10.376...] and [11.210...],
    and the rate is [1.0566771306731708]. *)
Lemma C1_rate_formula_witness :
  calc_rate Ref.env Ref.euler 1%float (A1 ts9) (Some (A1 us8)) None 0
  = (Return 0x1.0e826476ac219p+0%float, 8).
Proof.
  pose (run := fun ts us => map A0 (1 :: Ref.euler_steps 1 0 (tl ts) us)%float).
  pose (states := run ts9 us8).
  pose (states_2 := run (take_every 2 0 ts9) (merge_U1 us8)).
  pose (states_4 := run (take_every 4 0 ts9) (merge_U1 (merge_U1 us8))).
  etransitivity.
  - eapply (C1_rate_formula Ref.env Ref.euler 1%float 8 ts9 us8
              (map Ref.sample (seq 0 8)) (Some (A1 us8)) None 0 0 8 8 8 8
              {| vec_soln := states |} {| vec_soln := states_2 |}
              {| vec_soln := states_4 |}
              (removelast states) (removelast states_2) (removelast states_4)
              (last states (A0 0)) (last states_2 (A0 0))
              (last states_4 (A0 0)));
      reflexivity.
  - reflexivity.
Defined.

Section ZeroDistance.

Variable env : Env.

(** C5, as the code has it: when the run reaches the rate and the
    distance between the coarse and the middle final states, or between
    the middle and the fine ones, is exactly zero, [calc_rate] raises
    nothing: with numpy's [log(0) = -inf] it returns
    [(log(d1) - log(d2)) / log(2)], a float that is not finite (an
    infinity or NaN). *)
Theorem C5_zero_distance_returns (integrator : Integrator env)
  (rho_0 : Rho env)
  (times U1s U2s times_2 U1s_2 U2s_2 times_4 U1s_4 U2s_4 : ndarray)
  (U1opt U2opt : option ndarray) (len : Z)
  (w wa wb w1 w2 w3 : World env) (sol sol_2 sol_4 : Solution)
  (fine mid coarse e1 e2 : ndarray) :
  np_log env 0 = neg_infinity ->
  @py_len (IExn env) times = Return len ->
  or_randn env U1opt (len - 1)%Z w = (Return U1s, wa) ->
  or_randn env U2opt (len - 1)%Z wa = (Return U2s, wb) ->
  @double_increments (IExn env) times U1s (Some U2s)
    = Return (Triple times_2 U1s_2 U2s_2) ->
  @double_increments (IExn env) times_2 U1s_2 (Some U2s_2)
    = Return (Triple times_4 U1s_4 U2s_4) ->
  integrator rho_0 times (Some U1s) (Some U2s) wb = (inl sol, w1) ->
  integrator rho_0 times_2 (Some U1s_2) (Some U2s_2) w1 = (inl sol_2, w2) ->
  integrator rho_0 times_4 (Some U1s_4) (Some U2s_4) w2 = (inl sol_4, w3) ->
  @py_last (IExn env) _ (vec_soln sol) = Return fine ->
  @py_last (IExn env) _ (vec_soln sol_2) = Return mid ->
  @py_last (IExn env) _ (vec_soln sol_4) = Return coarse ->
  @np_sub (IExn env) coarse mid = Return e1 ->
  @np_sub (IExn env) mid fine = Return e2 ->
  l1_norm env e1 = 0%float \/ l1_norm env e2 = 0%float ->
  exists rate : float,
    calc_rate env integrator rho_0 times U1opt U2opt w = (Return rate, w3) /\
    rate = ((np_log env (l1_norm env e1) - np_log env (l1_norm env e2))
            / np_log env 2)%float /\
    not_finite rate = true.
Proof.
  intros Hlog Hlen HU1 HU2 Hr2 Hr4 Hi Hi2 Hi4 Hf Hm Hc He1 He2 Hz.
  eexists. split; [|split; [reflexivity|]].
  - exact (calc_rate_run env integrator rho_0 times U1s U2s times_2 U1s_2
             U2s_2 times_4 U1s_4 U2s_4 U1opt U2opt len w wa wb w1 w2 w3
             sol sol_2 sol_4 fine mid coarse e1 e2
             Hlen HU1 HU2 Hr2 Hr4 Hi Hi2 Hi4 Hf Hm Hc He1 He2).
  - apply not_finite_div. destruct Hz as [-> | ->]; rewrite Hlog.
    + apply not_finite_sub_l. reflexivity.
    + apply not_finite_sub_r. reflexivity.
Qed.

End ZeroDistance.

Lemma C5_zero_distance_returns_witness :
  exists rate : float,
    calc_rate Ref.env Ref.frozen 1%float (A1 ts9)
      (Some (A1 us8)) (Some (A1 vs8)) 0 = (Return rate, 0) /\
    not_finite rate = true.
Proof.
  destruct (C5_zero_distance_returns Ref.env Ref.frozen 1%float
              (A1 ts9) (A1 us8) (A1 vs8)
              (A1 (take_every 2 0 ts9)) (A1 (merge_U1 us8))
              (A1 (merge_U2 us8 vs8))
              (A1 (take_every 4 0 ts9)) (A1 (merge_U1 (merge_U1 us8)))
              (A1 (merge_U2 (merge_U1 us8) (merge_U2 us8 vs8)))
              (Some (A1 us8)) (Some (A1 vs8)) 9%Z 0 0 0 0 0 0
              {| vec_soln := map (fun _ => A0 1%float) ts9 |}
              {| vec_soln := map (fun _ => A0 1%float) (take_every 2 0 ts9) |}
              {| vec_soln := map (fun _ => A0 1%float) (take_every 4 0 ts9) |}
              (A0 1%float) (A0 1%float) (A0 1%float)
              (A0 0%float) (A0 0%float)
              eq_refl eq_refl eq_refl eq_refl eq_refl eq_refl eq_refl eq_refl
              eq_refl eq_refl eq_refl eq_refl eq_refl eq_refl
              (or_introl eq_refl))
    as (rate & Hrun & _ & Hnf).
  exists rate. split; assumption.
Defined.

(** C5 as stated fails: an integrator whose state never moves makes both
    distances zero, and [calc_rate] returns NaN where the claim has it
    raise. *)
Lemma C5_counterexample :
  l1_norm Ref.env (A0 (1 - 1)%float) = 0%float /\
  calc_rate Ref.env Ref.frozen 1%float (A1 ts9)
    (Some (A1 us8)) (Some (A1 vs8)) 0 = (Return nan, 0).
Proof. split; reflexivity. Qed.

(** ** What a run of the estimator depends on *)

Section Runs.

Variable env : Env.





(** The result of [c] does not depend on the world it starts from. *)
Definition same_result {A : Type} (c : M env A) : Prop :=
  forall w1 w2, fst (c w1) = fst (c w2).

Lemma same_result_bind {A B : Type} (c : M env A) (k : A -> M env B) :
  same_result c -> (forall a, same_result (k a)) ->
  same_result (bind env c k).
Proof.
  intros Hc Hk w1 w2. unfold bind. specialize (Hc w1 w2).
  destruct (c w1) as [[a1|e1] w1'], (c w2) as [[a2|e2] w2'];
    cbn [fst] in Hc; try discriminate.
  - injection Hc as <-. apply Hk.
  - injection Hc as <-. reflexivity.
Qed.

Lemma same_result_lift {A : Type} (r : pyresult (IExn env) A) :
  same_result (lift env r).
Proof. intros w1 w2. reflexivity. Qed.

Lemma same_result_ret {A : Type} (a : A) : same_result (ret env a).
Proof. intros w1 w2. reflexivity. Qed.

(** [c] leaves the world as it found it. *)
Definition same_world {A : Type} (c : M env A) : Prop :=
  forall w, snd (c w) = w.

Lemma same_world_bind {A B : Type} (c : M env A) (k : A -> M env B) :
  same_world c -> (forall a, same_world (k a)) ->
  same_world (bind env c k).
Proof.
  intros Hc Hk w. unfold bind. specialize (Hc w).
  destruct (c w) as [[a|e] w0]; cbn [snd] in *; subst w0;
    [apply Hk|reflexivity].
Qed.

Lemma same_world_lift {A : Type} (r : pyresult (IExn env) A) :
  same_world (lift env r).
Proof. intros w. reflexivity. Qed.

Lemma same_world_ret {A : Type} (a : A) : same_world (ret env a).
Proof. intros w. reflexivity. Qed.


End Runs.

Section Determinism.

Variable env : Env.
Variable integrator : Integrator env.

(** What the integrator returns is a function of its arguments. *)
Variable out : Rho env -> ndarray -> option ndarray -> option ndarray ->
               Solution + IExn env.
Hypothesis integrator_out :
  forall rho_0 times U1s U2s w,
    fst (integrator rho_0 times U1s U2s w) = out rho_0 times U1s U2s.

Lemma same_result_integrate (rho_0 : Rho env) (times : ndarray)
  (U1s U2s : option ndarray) :
  same_result env (integrate env integrator rho_0 times U1s U2s).
Proof.
  intros w1 w2. unfold integrate.
  pose proof (integrator_out rho_0 times U1s U2s w1) as H1.
  pose proof (integrator_out rho_0 times U1s U2s w2) as H2.
  destruct (integrator rho_0 times U1s U2s w1) as [[s1|x1] w1'],
           (integrator rho_0 times U1s U2s w2) as [[s2|x2] w2'];
    cbn [fst] in *; congruence.
Qed.

Lemma calc_rate_same_result (rho_0 : Rho env) (times U1s U2s : ndarray) :
  same_result env
    (calc_rate env integrator rho_0 times (Some U1s) (Some U2s)).
Proof.
  unfold calc_rate. cbn [or_randn].
  repeat first
    [ apply same_result_ret
    | apply same_result_lift
    | apply same_result_integrate
    | apply same_result_bind; [|intros; try match goal with
                                            | x : (_ * _ * _)%type |- _ =>
                                                destruct x as [[? ?] ?]
                                            end] ].
Qed.

Lemma calc_rate_same_world (rho_0 : Rho env) (times U1s U2s : ndarray) :
  (forall rho t a b w, snd (integrator rho t a b w) = w) ->
  same_world env
    (calc_rate env integrator rho_0 times (Some U1s) (Some U2s)).
Proof.
  intros Hw.
  assert (Hi : forall rho t a b,
             same_world env (integrate env integrator rho t a b)).
  { intros rho t a b w. unfold integrate. specialize (Hw rho t a b w).
    destruct (integrator rho t a b w) as [[s|x] w']; exact Hw. }
  unfold calc_rate. cbn [or_randn].
  repeat first
    [ apply same_world_ret
    | apply same_world_lift
    | apply Hi
    | apply same_world_bind; [|intros; try match goal with
                                           | x : (_ * _ * _)%type |- _ =>
                                               destruct x as [[? ?] ?]
                                           end] ].
Qed.

End Determinism.

(** C7: with [times], [U1s] and [U2s] all supplied and an integrator whose
    output is a function of its arguments, two runs of [calc_rate], from
    whatever states of the world, give the same result; the run does not
    depend on the random source, and when the integrator leaves the world
    as it is, so does [calc_rate]. *)
Theorem C7_two_run_determinism (env : Env) (integrator : Integrator env)
  (out : Rho env -> ndarray -> option ndarray -> option ndarray ->
         Solution + IExn env)
  (rho_0 : Rho env) (times U1s U2s : ndarray) :
  (forall rho t a b w, fst (integrator rho t a b w) = out rho t a b) ->
  (forall w1 w2,
     fst (calc_rate env integrator rho_0 times (Some U1s) (Some U2s) w1) =
     fst (calc_rate env integrator rho_0 times (Some U1s) (Some U2s) w2))
  /\
  (forall randn' w,
     calc_rate (with_randn env randn') integrator rho_0 times
       (Some U1s) (Some U2s) w =
     calc_rate env integrator rho_0 times (Some U1s) (Some U2s) w)
  /\
  ((forall rho t a b w, snd (integrator rho t a b w) = w) ->
   forall w,
     snd (calc_rate env integrator rho_0 times (Some U1s) (Some U2s) w) = w).
Proof.
  intros Hout. split; [|split].
  - exact (calc_rate_same_result env integrator out Hout rho_0 times U1s U2s).
  - intros randn' w. reflexivity.
  - intros Hw. exact (calc_rate_same_world env integrator rho_0 times U1s U2s Hw).
Qed.

Lemma C7_two_run_determinism_witness :
  fst (calc_rate Ref.env Ref.euler 1%float (A1 ts9)
         (Some (A1 us8)) (Some (A1 vs8)) 0) =
  fst (calc_rate Ref.env Ref.euler 1%float (A1 ts9)
         (Some (A1 us8)) (Some (A1 vs8)) 5)
  /\
  snd (calc_rate Ref.env Ref.euler 1%float (A1 ts9)
         (Some (A1 us8)) (Some (A1 vs8)) 5) = 5.
Proof.
  destruct (C7_two_run_determinism Ref.env Ref.euler
              (fun rho t a b => fst (Ref.euler rho t a b 0))
              1%float (A1 ts9) (A1 us8) (A1 vs8)) as (H1 & _ & H3).
  - intros rho t a b w. unfold Ref.euler.
    destruct t as [x|[|x l]|c rows]; try reflexivity.
    destruct a as [[y|ys|c rows]|]; reflexivity.
  - split; [apply H1|]. apply H3. intros rho t a b w. unfold Ref.euler.
    destruct t as [x|[|x l]|c rows]; try reflexivity.
    destruct a as [[y|ys|c rows]|]; reflexivity.
Defined.

Section NoneIsDrawn.

Variable env : Env.











End NoneIsDrawn.



(** ** Memory: what a call of the refiner touches *)

Section MemFacts.

Context {E : Type}.

(** [h'] is [h] with more buffers after it. *)
Definition extends (h h' : heap) : Prop := exists more, h' = h ++ more.

Lemma extends_refl (h : heap) : extends h h.
Proof. exists []. symmetry. apply app_nil_r. Qed.

Lemma extends_trans (h1 h2 h3 : heap) :
  extends h1 h2 -> extends h2 h3 -> extends h1 h3.
Proof.
  intros [m1 ->] [m2 ->]. exists (m1 ++ m2). symmetry. apply app_assoc.
Qed.

Lemma extends_length (h h' : heap) : extends h h' -> length h <= length h'.
Proof. intros [m ->]. rewrite length_app. lia. Qed.

(** An array over a buffer of [h] reads the same in every extension. *)
Lemma contents_extends (h h' : heap) (a : harray) :
  extends h h' -> base a < length h -> contents h' a = contents h a.
Proof.
  intros [m ->] Hb. unfold contents. rewrite app_nth1 by exact Hb.
  reflexivity.
Qed.

(** Every run of [c] from an extension of [h0] ends in an extension of
    [h0], its result satisfying [Q]. *)
Definition grows {A : Type} (h0 : heap) (c : HM E A) (Q : A -> Prop) : Prop :=
  forall h r h', extends h0 h -> c h = (r, h') ->
    extends h0 h' /\ match r with Return a => Q a | Raise _ => True end.

Lemma grows_bind {A B : Type} (h0 : heap) (c : HM E A) (k : A -> HM E B)
  (Q : A -> Prop) (Q' : B -> Prop) :
  grows h0 c Q -> (forall a, Q a -> grows h0 (k a) Q') ->
  grows h0 (hbind c k) Q'.
Proof.
  intros Hc Hk h r h' Hext H. unfold hbind in H.
  destruct (c h) as [[a|e] h1] eqn:Ec.
  - destruct (Hc h _ _ Hext Ec) as [Hext1 Ha].
    exact (Hk a Ha h1 r h' Hext1 H).
  - injection H as <- <-. destruct (Hc h _ _ Hext Ec) as [Hext1 _].
    split; [exact Hext1|exact I].
Qed.

Lemma grows_lift {A : Type} (h0 : heap) (r : pyresult E A) (Q : A -> Prop) :
  match r with Return a => Q a | Raise _ => True end ->
  grows h0 (hlift r) Q.
Proof. intros H h r' h' Hext Er. injection Er as <- <-. auto. Qed.

(** The result of an operation is over a buffer that [h0] did not have. *)
Lemma grows_binop (h0 : heap) (f : float -> float -> float) (a b : operand) :
  grows h0 (h_binop f a b) (fun r => length h0 <= base r).
Proof.
  intros h r h' Hext H. unfold h_binop in H.
  destruct (np_binop f (value h a) (value h b)) as [v|e].
  - cbn [alloc] in H. injection H as <- <-. split.
    + apply (extends_trans h0 h); [exact Hext|]. eexists; reflexivity.
    + cbn [base]. apply extends_length. exact Hext.
  - injection H as <- <-. split; [exact Hext|exact I].
Qed.

(** A slice is over the buffer of the array it slices. *)
Lemma grows_slice2 (h0 : heap) (start : nat) (a : harray) :
  grows h0 (hlift (h_slice2 start a))
    (fun v => base v = base a /\ offset v = offset a + start * step a /\
              step v = 2 * step a).
Proof.
  apply grows_lift. unfold h_slice2.
  destruct (shape a); cbn; auto.
Qed.

Lemma double_increments_h_grows (h0 : heap) (times U1s : harray)
  (U2s : option harray) :
  grows h0 (double_increments_h times U1s U2s)
    (fun r =>
       (base (hr_times r) = base times /\
        offset (hr_times r) = offset times /\
        step (hr_times r) = 2 * step times) /\
       length h0 <= base (hr_U1s r) /\
       (forall v, hr_U2s r = Some v -> length h0 <= base v)).
Proof.
  unfold double_increments_h.
  eapply grows_bind; [apply grows_slice2|]. intros new_times Ht.
  eapply grows_bind; [apply grows_slice2|]. intros even_U1s _.
  eapply grows_bind; [apply grows_slice2|]. intros odd_U1s _.
  eapply grows_bind; [apply grows_binop|]. intros s _.
  eapply grows_bind; [apply grows_binop|]. intros new_U1s Hu.
  assert (Ht' : base new_times = base times /\
                offset new_times = offset times /\
                step new_times = 2 * step times).
  { destruct Ht as (? & ? & ?). repeat split; auto; lia. }
  destruct U2s as [U2s|].
  - eapply grows_bind; [apply grows_slice2|]. intros even_U2s _.
    eapply grows_bind; [apply grows_slice2|]. intros odd_U2s _.
    eapply grows_bind; [apply grows_binop|]. intros d _.
    eapply grows_bind; [apply grows_binop|]. intros m _.
    eapply grows_bind; [apply grows_binop|]. intros s1 _.
    eapply grows_bind; [apply grows_binop|]. intros s2 _.
    eapply grows_bind; [apply grows_binop|]. intros new_U2s Hv.
    apply grows_lift. cbn. split; [exact Ht'|]. split; [exact Hu|].
    intros v Hsome. injection Hsome as <-. exact Hv.
  - apply grows_lift. cbn. split; [exact Ht'|]. split; [exact Hu|].
    intros v Hsome. discriminate.
Qed.

End MemFacts.

(** ** Memory: the views read what the values are *)

Section Views.

(** Slicing the items [g 0 .. g (n-1)] gives the items
    [g start, g (start + 2), ...]. *)
Lemma take_every2_map_seq {A : Type} (g : nat -> A) (start n : nat) :
  take_every 2 start (map g (seq 0 n)) =
  map (fun i => g (start + i * 2)) (seq 0 (slice2_count start n)).
Proof.
  apply nth_error_ext; intros j.
  rewrite take_every_nth_error, !nth_error_map, !nth_error_seq.
  unfold slice2_count.
  pose proof (Nat.div_mod_eq (n - start + 1) 2) as Hd.
  pose proof (Nat.mod_upper_bound (n - start + 1) 2) as Hm.
  destruct (Nat.ltb_spec (start + j * 2) n),
           (Nat.ltb_spec j ((n - start + 1) / 2)); cbn; try reflexivity; lia.
Qed.

(** Reading back a rank-1 or rank-2 value from the buffer that holds
    its components. *)
Lemma read_back_1 (xs : list float) :
  map (fun i => nth (0 + i * 1) xs 0%float) (seq 0 (length xs)) = xs.
Proof.
  apply nth_error_ext; intros j.
  rewrite nth_error_map, nth_error_seq.
  destruct (Nat.ltb_spec j (length xs)) as [Hj|Hj]; cbn.
  - rewrite Nat.mul_1_r. symmetry. apply nth_error_nth'. exact Hj.
  - symmetry. apply nth_error_None. exact Hj.
Qed.

Lemma read_back_2 (c : nat) (rows : list (list float)) :
  Forall (fun r => length r = c) rows ->
  map (fun i => firstn c (skipn (0 + i * c) (concat rows)))
    (seq 0 (length rows)) = rows.
Proof.
  induction 1 as [|r rows Hr Hrows IH]; [reflexivity|].
  cbn [length seq map concat]. f_equal.
  - cbn. rewrite firstn_app, Hr, Nat.sub_diag, firstn_all2 by lia.
    cbn. apply app_nil_r.
  - rewrite <- seq_shift, map_map. rewrite <- IH at 2.
    apply map_ext; intros i.
    replace (0 + S i * c) with (length r + i * c) by lia.
    rewrite skipn_app, skipn_all2 by lia.
    replace (length r + i * c - length r) with (0 + i * c) by lia.
    reflexivity.
Qed.

(** [a] is an array of [h] that reads [v]. *)
Definition reads (h : heap) (a : harray) (v : ndarray) : Prop :=
  base a < length h /\ contents h a = v /\ wf_ndarray v.

Definition oreads (h : heap) (o : operand) (v : ndarray) : Prop :=
  match o with
  | Arr a => reads h a v
  | Scalar x => v = A0 x
  end.

Lemma reads_extends (h h' : heap) (a : harray) (v : ndarray) :
  extends h h' -> reads h a v -> reads h' a v.
Proof.
  intros Hext (Hb & Hc & Hwf). split; [|split].
  - pose proof (extends_length h h' Hext). lia.
  - rewrite (contents_extends h h' a Hext Hb). exact Hc.
  - exact Hwf.
Qed.

Lemma oreads_value (h : heap) (o : operand) (v : ndarray) :
  oreads h o v -> value h o = v /\ wf_ndarray v.
Proof.
  destruct o as [a|x]; cbn.
  - intros (_ & Hc & Hwf). auto.
  - intros ->. split; [reflexivity|exact I].
Qed.

Lemma reads_alloc (h : heap) (v : ndarray) :
  wf_ndarray v -> reads (h ++ [flatten v]) (fst (alloc h v)) v.
Proof.
  intros Hwf. split; [|split; [|exact Hwf]].
  - cbn. rewrite length_app. cbn. lia.
  - unfold contents. cbn [alloc fst base offset step shape].
    rewrite nth_middle.
    destruct v as [x|xs|c rows]; cbn [flatten].
    + reflexivity.
    + f_equal. apply read_back_1.
    + f_equal. apply read_back_2. exact Hwf.
Qed.

Lemma reads_slice2 {E : Type} (h : heap) (start : nat) (a : harray)
  (v : ndarray) :
  reads h a v ->
  match @h_slice2 E start a, @np_slice2 E start v with
  | Return a', Return v' => reads h a' v'
  | Raise e, Raise e' => e = e'
  | _, _ => False
  end.
Proof.
  intros (Hb & <- & Hwf). unfold h_slice2, reads, contents in *.
  destruct (shape a) as [|n|r c]; cbn [np_slice2].
  - reflexivity.
  - split; [exact Hb|]. split; [|exact I].
    cbn [base offset step shape]. f_equal.
    rewrite take_every2_map_seq. apply map_ext; intros i. f_equal. lia.
  - split; [exact Hb|]. split.
    + cbn [base offset step shape]. f_equal.
      rewrite take_every2_map_seq. apply map_ext; intros i.
      do 2 f_equal. lia.
    + cbn [wf_ndarray] in *. apply take_every_Forall. exact Hwf.
Qed.

End Views.

(** ** Well-formed results *)

Section WellFormed.

Lemma bcast_Forall {A B C : Type} (g : A -> B -> C) (P : C -> Prop)
  (xs : list A) (ys : list B) (rs : list C) :
  (forall x y, In x xs -> In y ys -> P (g x y)) ->
  bcast g xs ys = Some rs -> Forall P rs.
Proof.
  intros HP. unfold bcast. destruct (length xs =? length ys).
  - intros H. injection H as <-. clear - HP.
    revert ys HP; induction xs as [|x xs IH]; intros [|y ys] HP;
      cbn [zip_with]; constructor.
    + apply HP; left; reflexivity.
    + apply IH. intros x' y' Hx Hy. apply HP; right; assumption.
  - destruct xs as [|x [|x' xs]].
    + destruct ys as [|y [|y' ys]]; try discriminate.
      intros H. injection H as <-. constructor.
    + intros H. injection H as <-.
      apply (proj2 (Forall_map _ _ _)), Forall_forall.
      intros y Hy. apply HP; [left; reflexivity|exact Hy].
    + destruct ys as [|y [|y' ys]]; try discriminate.
      intros H.
      assert (Hall : Forall P (map (fun x0 => g x0 y) (x :: x' :: xs))).
      { apply (proj2 (Forall_map _ _ _)), Forall_forall.
        intros z Hz. apply HP; [exact Hz|left; reflexivity]. }
      injection H as <-. exact Hall.
Qed.

Lemma brow_length (f : float -> float -> float) (x y : list float)
  (c : nat) :
  bdim (length x) (length y) = Some c -> length (brow f x y) = c.
Proof.
  unfold brow, bcast, bdim.
  destruct (Nat.eqb_spec (length x) (length y)) as [Hxy|Hxy].
  - intros H. injection H as <-. rewrite zip_with_length. lia.
  - destruct x as [|x0 [|x1 x]]; cbn [length Nat.eqb].
    + destruct y as [|y0 [|y1 y]]; cbn [length Nat.eqb];
        try discriminate; try contradiction.
      intros H. injection H as <-. reflexivity.
    + intros H. injection H as <-. apply length_map.
    + destruct y as [|y0 [|y1 y]]; cbn [length Nat.eqb];
        try discriminate.
      intros H. injection H as <-. rewrite length_map. reflexivity.
Qed.

Lemma mat_binop_wf {E : Type} (f : float -> float -> float) (c1 c2 : nat)
  (r1 r2 : list (list float)) (v : ndarray) :
  Forall (fun r => length r = c1) r1 -> Forall (fun r => length r = c2) r2 ->
  @mat_binop E f c1 r1 c2 r2 = Return v -> wf_ndarray v.
Proof.
  intros H1 H2. unfold mat_binop.
  destruct (bdim c1 c2) as [c|] eqn:Hd; [|discriminate].
  destruct (bcast (brow f) r1 r2) as [rows|] eqn:Hb; [|discriminate].
  intros H. injection H as <-. cbn [wf_ndarray].
  apply (bcast_Forall (brow f) _ r1 r2 rows); [|exact Hb].
  intros x y Hx Hy. apply brow_length.
  rewrite Forall_forall in H1, H2. rewrite (H1 x Hx), (H2 y Hy). exact Hd.
Qed.

Lemma np_binop_wf {E : Type} (f : float -> float -> float)
  (a b v : ndarray) :
  wf_ndarray a -> wf_ndarray b -> @np_binop E f a b = Return v ->
  wf_ndarray v.
Proof.
  assert (Hmap : forall (g : float -> float) c rows,
             Forall (fun r => length r = c) rows ->
             Forall (fun r => length r = c) (map (map g) rows)).
  { intros g c rows H. apply (proj2 (Forall_map _ _ _)).
    apply (Forall_impl _ (P := fun r => length r = c)); [|exact H].
    intros r Hr. rewrite length_map. exact Hr. }
  destruct a as [x|xs|c rows], b as [y|ys|c' rows']; cbn [np_binop wf_ndarray];
    intros Ha Hb H;
    try (injection H as <-; cbn [wf_ndarray]; auto; fail).
  - destruct (bcast f xs ys); [injection H as <-; exact I|discriminate].
  - apply (mat_binop_wf f _ _ _ _ v) in H; auto.
  - apply (mat_binop_wf f _ _ _ _ v) in H; auto.
  - apply (mat_binop_wf f _ _ _ _ v) in H; auto.
Qed.

End WellFormed.

(** ** Memory: the two models agree *)

Section Simulation.

Context {E : Type}.

(** From every extension of [h0], [c] and the value-level [p] raise the
    same exception, or return results related by [R] in the final
    heap. *)
Definition sim {A B : Type} (h0 : heap) (c : HM E A) (p : pyresult E B)
  (R : heap -> A -> B -> Prop) : Prop :=
  forall h, extends h0 h ->
    match c h, p with
    | (Return a, h'), Return b => extends h h' /\ R h' a b
    | (Raise e, h'), Raise e' => e = e' /\ extends h h'
    | _, _ => False
    end.

Lemma sim_bind {A B A' B' : Type} (h0 : heap) (c : HM E A)
  (p : pyresult E B) (k : A -> HM E A') (k' : B -> pyresult E B')
  (R : heap -> A -> B -> Prop) (R' : heap -> A' -> B' -> Prop) :
  sim h0 c p R ->
  (forall a b h1, extends h0 h1 -> R h1 a b -> sim h1 (k a) (k' b) R') ->
  sim h0 (hbind c k) (rbind p k') R'.
Proof.
  intros Hc Hk h Hext. unfold hbind. specialize (Hc h Hext).
  destruct (c h) as [[a|e] h1], p as [b|e']; try contradiction.
  - destruct Hc as [H1 HR]. cbn [rbind].
    specialize (Hk a b h1 (extends_trans _ _ _ Hext H1) HR h1
                  (extends_refl h1)).
    destruct (k a h1) as [[a'|e1] h2], (k' b) as [b'|e2];
      try contradiction.
    + destruct Hk as [H2 HR']. split; [exact (extends_trans _ _ _ H1 H2)|].
      exact HR'.
    + destruct Hk as [He H2]. split; [exact He|].
      exact (extends_trans _ _ _ H1 H2).
  - exact Hc.
Qed.

Lemma sim_slice2 (h0 : heap) (start : nat) (a : harray) (v : ndarray) :
  reads h0 a v -> sim h0 (hlift (h_slice2 start a)) (np_slice2 start v) reads.
Proof.
  intros Hr h Hext. unfold hlift.
  pose proof (@reads_slice2 E h start a v (reads_extends _ _ _ _ Hext Hr)) as H.
  destruct (h_slice2 start a), (np_slice2 start v); try contradiction.
  - split; [apply extends_refl|exact H].
  - split; [exact H|apply extends_refl].
Qed.

Lemma oreads_extends (h h' : heap) (o : operand) (v : ndarray) :
  extends h h' -> oreads h o v -> oreads h' o v.
Proof.
  intros Hext. destruct o as [a|x]; cbn; [apply reads_extends; exact Hext|].
  auto.
Qed.

Lemma sim_binop (h0 : heap) (f : float -> float -> float) (a b : operand)
  (va vb : ndarray) :
  oreads h0 a va -> oreads h0 b vb ->
  sim h0 (h_binop f a b) (np_binop f va vb) reads.
Proof.
  intros Ha Hb h Hext. unfold h_binop.
  destruct (oreads_value h a va (oreads_extends _ _ _ _ Hext Ha)) as [-> Wa].
  destruct (oreads_value h b vb (oreads_extends _ _ _ _ Hext Hb)) as [-> Wb].
  destruct (@np_binop E f va vb) as [v|e] eqn:Ev.
  - pose proof (reads_alloc h v (np_binop_wf f _ _ v Wa Wb Ev)) as Hr.
    cbn [alloc fst] in *. split; [eexists; reflexivity|exact Hr].
  - split; [reflexivity|apply extends_refl].
Qed.

(** The arrays of a result read the values of a value-level result. *)
Definition reads_refined (h : heap) (hr : hrefined) (vr : refined) : Prop :=
  match hr, vr with
  | HPair t u, Pair vt vu => reads h t vt /\ reads h u vu
  | HTriple t u w, Triple vt vu vw =>
      reads h t vt /\ reads h u vu /\ reads h w vw
  | _, _ => False
  end.

(** What [U2s] reads, when there is one. *)
Definition reads_opt (h : heap) (a : option harray) (v : option ndarray)
  : Prop :=
  match a, v with
  | Some a, Some v => reads h a v
  | None, None => True
  | _, _ => False
  end.

(** Proof steps: what is read in a heap is read in its extensions; one
    slice; one operation. *)
Ltac carry :=
  repeat match goal with
         | Hext : extends ?h ?h', Hr : reads ?h ?a ?v |- _ =>
             lazymatch goal with
             | _ : reads h' a v |- _ => fail
             | _ => pose proof (reads_extends h h' a v Hext Hr)
             end
         end.
Ltac slice :=
  eapply sim_bind; [apply sim_slice2; eassumption|];
  intros ? ? ? ? ?; carry.
Ltac binop :=
  eapply sim_bind;
  [apply sim_binop; cbn [oreads]; first [eassumption|reflexivity]|];
  intros ? ? ? ? ?; carry.

(** The refiner on buffers and views computes what the refiner on
    values computes, and raises what it raises. *)
Theorem double_increments_h_refines (h0 : heap) (times U1s : harray)
  (U2s : option harray) (vtimes vU1s : ndarray) (vU2s : option ndarray) :
  reads h0 times vtimes -> reads h0 U1s vU1s -> reads_opt h0 U2s vU2s ->
  sim h0 (double_increments_h times U1s U2s)
    (double_increments vtimes vU1s vU2s) reads_refined.
Proof.
  intros Ht Hu Hv.
  unfold double_increments_h, double_increments, np_add, np_sub, np_mul,
    np_div.
  slice. slice. slice. binop. binop.
  destruct U2s as [U2s|], vU2s as [vU2s|]; cbn [reads_opt] in Hv;
    try contradiction.
  - carry. slice. slice. binop. binop. binop. binop. binop.
    intros h Hext. unfold hlift. split; [apply extends_refl|].
    cbn [reads_refined]. carry.
    repeat split; eapply reads_extends; eauto.
  - intros h Hext. unfold hlift. split; [apply extends_refl|].
    cbn [reads_refined]. carry.
    repeat split; eapply reads_extends; eauto.
Qed.

End Simulation.

(** C9, as the code has it: a call of the refiner, whether it returns or
    raises, writes to no buffer that existed before it, so every array of
    the caller ([times], [U1s] and [U2s] among them) reads afterwards what
    it read before; the [U1s] and the [U2s] it returns are over buffers
    of their own, shared with no argument; the [times] it returns is a
    view over the buffer of the [times] it was given. *)
Theorem C9_no_write_times_is_view (E : Type) (h h' : heap)
  (times U1s : harray) (U2s : option harray) (out : pyresult E hrefined) :
  base times < length h -> base U1s < length h ->
  (forall u, U2s = Some u -> base u < length h) ->
  double_increments_h times U1s U2s h = (out, h') ->
  (forall a, base a < length h -> contents h' a = contents h a)
  /\
  (forall r, out = Return r ->
     (base (hr_times r) = base times /\
      offset (hr_times r) = offset times /\
      step (hr_times r) = 2 * step times)
     /\
     (base (hr_U1s r) <> base times /\ base (hr_U1s r) <> base U1s /\
      forall u, U2s = Some u -> base (hr_U1s r) <> base u)
     /\
     (forall v, hr_U2s r = Some v ->
        base v <> base times /\ base v <> base U1s /\
        forall u, U2s = Some u -> base v <> base u)).
Proof.
  intros Ht Hu Hv Hrun.
  destruct (double_increments_h_grows (E := E) h times U1s U2s h out h'
              (extends_refl h) Hrun) as [Hext Hout].
  split.
  - intros a Ha. exact (contents_extends h h' a Hext Ha).
  - intros r ->. destruct Hout as (Hview & Hfresh1 & Hfresh2).
    split; [exact Hview|]. split.
    + repeat split; try lia. intros u Hsome. specialize (Hv u Hsome). lia.
    + intros v Hsome. specialize (Hfresh2 v Hsome).
      repeat split; try lia. intros u Hsome'. specialize (Hv u Hsome'). lia.
Qed.

Lemma C9_no_write_times_is_view_witness :
  let h := [ts9; us8; vs8] in
  let run := @double_increments_h unit (whole1 0 9) (whole1 1 8)
               (Some (whole1 2 8)) h in
  contents (snd run) (whole1 1 8) = contents h (whole1 1 8) /\
  forall r, fst run = Return r ->
    base (hr_times r) = 0 /\ base (hr_U1s r) <> 1.
Proof.
  intros h run.
  destruct (C9_no_write_times_is_view unit h (snd run)
              (whole1 0 9) (whole1 1 8) (Some (whole1 2 8)) (fst run))
    as [Hframe Hres].
  - vm_compute. lia.
  - vm_compute. lia.
  - intros u Hsome. injection Hsome as <-. vm_compute. lia.
  - apply surjective_pairing.
  - split.
    + apply Hframe. vm_compute. lia.
    + intros r Hr. destruct (Hres r Hr) as ((Hb & _) & (_ & Hu & _) & _).
      split; [exact Hb|exact Hu].
Defined.

(** C9 as stated fails: the [times] returned is over the buffer of the
    [times] given, and a write through it is seen in the caller's grid. *)
Lemma C9_counterexample :
  exists (r : hrefined) (h' : heap),
    @double_increments_h unit (whole1 0 9) (whole1 1 8) None [ts9; us8]
      = (Return r, h') /\
    base (hr_times r) = base (whole1 0 9) /\
    contents h' (whole1 0 9) = A1 ts9 /\
    contents (h_setitem h' (hr_times r) 1 99%float) (whole1 0 9)
      = A1 [0; 0.125; 99; 0.375; 0.5; 0.625; 0.75; 0.875; 1]%float.
Proof.
  eexists. eexists. split; [reflexivity|].
  split; [reflexivity|]. split; reflexivity.
Qed.

(** * Further properties of the refiner *)

Section RefinerOutcomes.

Context {E : Type}.

(** Slicing raises on rank 0 only, arithmetic on extents that do not
    broadcast only. *)
Lemma np_slice2_raises (start : nat) (a : ndarray) (e : pyexn E) :
  np_slice2 start a = Raise e -> e = IndexError /\ exists x, a = A0 x.
Proof.
  destruct a as [x|xs|c rows]; cbn; try discriminate.
  intros H. injection H as <-. eauto.
Qed.

Lemma np_binop_raises (f : float -> float -> float) (a b : ndarray)
  (e : pyexn E) :
  np_binop f a b = Raise e -> e = BroadcastError.
Proof.
  destruct a as [x|xs|c rows], b as [y|ys|c' rows']; cbn; try discriminate;
    unfold mat_binop;
    repeat match goal with
           | |- context [match ?o with Some _ => _ | None => _ end] =>
               destruct o
           end; try discriminate; intros H; injection H as <-; reflexivity.
Qed.

(** X1: what a call of [double_increments] can end in, whatever the ranks and
    extents of its arguments: the broadcasting [ValueError], the
    [IndexError] of slicing a 0-d array, a pair when [U2s] is omitted, a
    triple when it is passed.  When it raises [IndexError], one of the
    arguments is 0-d. *)
Theorem double_increments_all_outcomes (times U1s : ndarray)
  (U2s : option ndarray) :
  match @double_increments E times U1s U2s with
  | Return (Pair _ _) => U2s = None
  | Return (Triple _ _ _) => exists u2, U2s = Some u2
  | Raise BroadcastError => True
  | Raise IndexError =>
      (exists x, times = A0 x) \/ (exists x, U1s = A0 x) \/
      (exists x, U2s = Some (A0 x))
  | Raise _ => False
  end.
Proof.
  unfold double_increments, np_add, np_sub, np_mul, np_div.
  destruct (np_slice2 0 times) as [nt|e] eqn:Et; cbn [rbind];
    [|destruct (np_slice2_raises _ _ _ Et) as [-> Hx]; auto].
  destruct (np_slice2 0 U1s) as [ev|e] eqn:Ee; cbn [rbind];
    [|destruct (np_slice2_raises _ _ _ Ee) as [-> Hx]; auto].
  destruct (np_slice2 1 U1s) as [od|e] eqn:Eo; cbn [rbind];
    [|destruct (np_slice2_raises _ _ _ Eo) as [-> Hx]; auto].
  destruct (np_binop PrimFloat.add ev od) as [s|e] eqn:E1; cbn [rbind];
    [|rewrite (np_binop_raises _ _ _ _ E1); exact I].
  destruct (np_binop PrimFloat.div s _) as [nu|e] eqn:E2; cbn [rbind];
    [|rewrite (np_binop_raises _ _ _ _ E2); exact I].
  destruct U2s as [u2|]; [|reflexivity].
  destruct (np_slice2 0 u2) as [ev2|e] eqn:Ee2; cbn [rbind];
    [|destruct (np_slice2_raises _ _ _ Ee2) as [-> [x ->]]; eauto].
  destruct (np_slice2 1 u2) as [od2|e] eqn:Eo2; cbn [rbind];
    [|destruct (np_slice2_raises _ _ _ Eo2) as [-> [x ->]]; eauto].
  repeat match goal with
         | |- context [rbind (np_binop ?f ?a ?b) _] =>
             let H := fresh "Eb" in
             destruct (np_binop f a b) eqn:H; cbn [rbind];
             [|rewrite (np_binop_raises _ _ _ _ H); exact I]
         end.
  eauto.
Qed.

(** X2: a 0-d [times] or [U1s] is refused before anything is computed. *)
Theorem double_increments_rank0 (times U1s : ndarray) (U2s : option ndarray) :
  (exists x, times = A0 x) \/ (exists x, U1s = A0 x) ->
  @double_increments E times U1s U2s = Raise IndexError.
Proof.
  intros [[x ->]|[x ->]]; [reflexivity|].
  destruct times as [t|ts|c rows]; reflexivity.
Qed.

End RefinerOutcomes.

Lemma double_increments_rank0_witness :
  @double_increments unit (A1 ts9) (A0 1%float) None = Raise IndexError.
Proof.
  apply double_increments_rank0. right. exists 1%float. reflexivity.
Defined.

Section RefinerLaws.

Context {E : Type}.

Local Open Scope float_scope.

(** X4: two refinements in closed form: the increment of the quadruple
    interval [k] in terms of the four increments it covers. *)
Theorem double_increments_twice_U1s (n : nat) (ts U1s : list float) :
  (n mod 4 = 0)%nat -> length U1s = n ->
  exists (r r4 : refined) (U1s_4 : list float),
    @double_increments E (A1 ts) (A1 U1s) None = Return r /\
    @double_increments E (refined_times r) (refined_U1s r) None = Return r4 /\
    refined_U1s r4 = A1 U1s_4 /\
    length U1s_4 = (n / 4)%nat /\
    forall k, (k < n / 4)%nat ->
      nth k U1s_4 0 =
        ((nth (4 * k) U1s 0 + nth (4 * k + 1) U1s 0) / sqrt 2
         + (nth (4 * k + 2) U1s 0 + nth (4 * k + 3) U1s 0) / sqrt 2) / sqrt 2.
Proof.
  intros H4 HU. pose proof (quarter_half n H4) as Hq.
  pose proof (even_half n (quarter_even n H4)) as Hn.
  assert (L1 : length U1s = (2 * (n / 2))%nat) by congruence.
  assert (L2 : length (merge_U1 U1s) = (2 * (n / 4))%nat).
  { rewrite (merge_U1_length U1s _ L1). exact Hq. }
  eexists _, _, (merge_U1 (merge_U1 U1s)).
  split; [exact (double_increments_1d ts U1s _ L1)|].
  split; [exact (double_increments_1d _ _ _ L2)|].
  split; [reflexivity|].
  split; [exact (merge_U1_length _ _ L2)|].
  intros k Hk.
  rewrite (merge_U1_nth _ _ k L2 Hk).
  rewrite (merge_U1_nth U1s (n / 2) (2 * k) L1) by lia.
  rewrite (merge_U1_nth U1s (n / 2) (2 * k + 1) L1) by lia.
  replace (2 * (2 * k))%nat with (4 * k)%nat by lia.
  replace (2 * (2 * k) + 1)%nat with (4 * k + 1)%nat by lia.
  replace (2 * (2 * k + 1))%nat with (4 * k + 2)%nat by lia.
  replace (4 * k + 2 + 1)%nat with (4 * k + 3)%nat by lia.
  reflexivity.
Qed.

Lemma bcast_singleton_r {A B C : Type} (f : A -> B -> C) (xs : list A) (y : B) :
  bcast f xs [y] = Some (map (fun x => f x y) xs).
Proof. destruct xs as [|x [|x' xs]]; reflexivity. Qed.

(** X5: a [U2s] of two samples is not refused with a longer [U1s]: its one
    merged value is broadcast against every merged interval. *)
Theorem double_increments_U2s_of_two (m : nat) (ts U1s : list float)
  (c d : float) :
  length U1s = (2 * m)%nat ->
  exists new_U1s new_U2s : list float,
    @double_increments E (A1 ts) (A1 U1s) (Some (A1 [c; d]))
      = Return (Triple (A1 (take_every 2 0 ts)) (A1 new_U1s) (A1 new_U2s)) /\
    length new_U2s = m /\
    forall k, (k < m)%nat ->
      nth k new_U2s 0 =
        (sqrt 3 * (nth (2 * k) U1s 0 - nth (2 * k + 1) U1s 0) + c + d)
        / (2 * sqrt 2).
Proof.
  intros H. destruct (take_every2_even_length U1s m H) as [He Ho].
  eexists. eexists. split; [|split].
  - unfold double_increments, np_add, np_div, np_sub, np_mul.
    cbn [np_slice2 rbind np_binop take_every Nat.sub].
    rewrite !bcast_same_length by congruence. cbn [rbind np_binop].
    repeat (rewrite bcast_singleton_r; cbn [rbind np_binop]). reflexivity.
  - rewrite !length_map, zip_with_length. lia.
  - intros k Hk. apply nth_error_nth.
    rewrite !nth_error_map, zip_with_nth_error, !take_every_nth_error.
    replace (0 + k * 2)%nat with (2 * k)%nat by lia.
    replace (1 + k * 2)%nat with (2 * k + 1)%nat by lia.
    rewrite !nth_error_in_range by lia. reflexivity.
Qed.

(** X6: other than that, a [U2s] whose length differs from that of [U1s] is
    refused by the broadcasting rules. *)
Theorem double_increments_length_mismatch (m p : nat)
  (ts U1s U2s : list float) :
  length U1s = (2 * m)%nat -> length U2s = (2 * p)%nat ->
  m <> p -> m <> 1%nat -> p <> 1%nat ->
  @double_increments E (A1 ts) (A1 U1s) (Some (A1 U2s)) = Raise BroadcastError.
Proof.
  intros H1 H2 Hmp Hm Hp.
  destruct (take_every2_even_length U1s m H1) as [He Ho].
  destruct (take_every2_even_length U2s p H2) as [He2 Ho2].
  unfold double_increments, np_add, np_div, np_sub, np_mul.
  cbn [np_slice2 rbind np_binop].
  rewrite !bcast_same_length by congruence. cbn [rbind np_binop].
  rewrite bcast_mismatch; [reflexivity| | |];
    rewrite ?length_map, ?zip_with_length; lia.
Qed.

End RefinerLaws.

Lemma double_increments_twice_U1s_witness :
  exists (r r4 : refined) (U1s_4 : list float),
    @double_increments unit (A1 ts9) (A1 us8) None = Return r /\
    @double_increments unit (refined_times r) (refined_U1s r) None = Return r4 /\
    refined_U1s r4 = A1 U1s_4 /\
    nth 1 U1s_4 0%float
      = (((5 + 6) / sqrt 2 + (7 + 8) / sqrt 2) / sqrt 2)%float.
Proof.
  destruct (@double_increments_twice_U1s unit 8 ts9 us8 eq_refl eq_refl)
    as (r & r4 & v & H1 & H2 & H3 & _ & H5).
  exists r, r4, v. repeat split; try assumption.
  apply (H5 1). vm_compute. lia.
Defined.

Lemma double_increments_U2s_of_two_witness :
  exists new_U1s new_U2s : list float,
    @double_increments unit (A1 ts9) (A1 us8) (Some (A1 [0.5; -1]%float))
      = Return (Triple (A1 (take_every 2 0 ts9)) (A1 new_U1s) (A1 new_U2s)) /\
    length new_U2s = 4.
Proof.
  destruct (@double_increments_U2s_of_two unit 4 ts9 us8 0.5%float (-1)%float
              eq_refl) as (v1 & v2 & H1 & H2 & _).
  exists v1, v2. split; assumption.
Defined.

Lemma double_increments_length_mismatch_witness :
  @double_increments unit (A1 ts9) (A1 us8)
    (Some (A1 [1; 2; 3; 4]%float)) = Raise BroadcastError.
Proof.
  apply (@double_increments_length_mismatch unit 4 2); try reflexivity; lia.
Defined.

Section RefinedGrid.

Context {E : Type}.

Lemma last_as_nth {A : Type} (l : list A) (d : A) :
  last l d = nth (length l - 1) l d.
Proof.
  induction l as [|x [|y t] IH]; try reflexivity.
  change (last (x :: y :: t) d) with (last (y :: t) d). rewrite IH.
  replace (length (x :: y :: t) - 1) with (S (length (y :: t) - 1))
    by (cbn [length]; lia).
  reflexivity.
Qed.

Lemma take_every2_nth {A : Type} (l : list A) (k : nat) (d : A) :
  2 * k < length l -> nth k (take_every 2 0 l) d = nth (2 * k) l d.
Proof.
  intros H. apply nth_error_nth. rewrite take_every_nth_error.
  replace (0 + k * 2) with (2 * k) by lia. apply nth_error_nth'. exact H.
Qed.

(** The grid a call returns is [times[::2]], whatever the increments. *)
Lemma refined_times_slice (times U1s : ndarray) (U2s : option ndarray)
  (r : refined) :
  @double_increments E times U1s U2s = Return r ->
  @np_slice2 E 0 times = Return (refined_times r).
Proof.
  intros H. destruct (double_increments_U1s_indep _ _ _ _ H) as (r0 & H0 & -> & _).
  unfold double_increments in H0.
  destruct (np_slice2 0 times) as [nt|]; [|discriminate]. cbn [rbind] in H0.
  repeat match type of H0 with
         | rbind ?c _ = _ => destruct c; [cbn [rbind] in H0|discriminate]
         end.
  injection H0 as <-. reflexivity.
Qed.

(** X7: the refined grid starts where the grid starts.  With an even number
    [n] of intervals it ends where the grid ends; with an odd number it
    ends one interval early, at [times[n - 1]]. *)
Theorem double_increments_endpoints (n : nat) (ts : list float)
  (U1s : ndarray) (U2s : option ndarray) (r : refined) :
  length ts = n + 1 ->
  @double_increments E (A1 ts) U1s U2s = Return r ->
  exists times_2 : list float,
    refined_times r = A1 times_2 /\
    hd_error times_2 = hd_error ts /\
    (Nat.even n = true -> forall d, last times_2 d = last ts d) /\
    (Nat.odd n = true -> forall d, last times_2 d = nth (n - 1) ts d).
Proof.
  intros Hts Hrun. apply refined_times_slice in Hrun.
  cbn [np_slice2] in Hrun. injection Hrun as Hr.
  exists (take_every 2 0 ts). split; [symmetry; exact Hr|].
  split; [destruct ts; reflexivity|]. split.
  - intros Hev d. pose proof (even_half n Hev) as Hn.
    destruct (take_every2_odd_length ts (n / 2)) as [Hl _]; [lia|].
    rewrite !last_as_nth, Hl, Hts, take_every2_nth by lia. f_equal. lia.
  - intros Hodd d. apply Nat.odd_spec in Hodd. destruct Hodd as [m Hm].
    destruct (take_every2_even_length ts (m + 1)) as [Hl _]; [lia|].
    rewrite last_as_nth, Hl, take_every2_nth by lia. f_equal. lia.
Qed.

End RefinedGrid.

Lemma double_increments_endpoints_witness :
  exists times_2 : list float,
    refined_times (Pair (A1 (take_every 2 0 ts9)) (A1 (merge_U1 us8)))
      = A1 times_2 /\
    last times_2 0%float = 1%float.
Proof.
  destruct (@double_increments_endpoints unit 8 ts9 (A1 us8) None
              (Pair (A1 (take_every 2 0 ts9)) (A1 (merge_U1 us8)))
              eq_refl eq_refl) as (t2 & H1 & _ & H3 & _).
  exists t2. split; [exact H1|]. rewrite (H3 eq_refl). reflexivity.
Defined.

Section Concatenation.

Context {E : Type}.

Lemma take_every2_app {A : Type} (m : nat) :
  forall (u v : list A) (k : nat), length u = 2 * m -> k < 2 ->
    take_every 2 k (u ++ v) = take_every 2 k u ++ take_every 2 k v.
Proof.
  induction m as [|m IH]; intros u v k Hu Hk.
  - destruct u; [reflexivity|discriminate].
  - destruct u as [|x [|y t]]; cbn [length] in Hu; try lia.
    assert (Ht : length t = 2 * m) by lia.
    destruct k as [|[|k]]; [| |lia]; cbn [take_every app Nat.sub];
      rewrite (IH t v) by (auto; lia); reflexivity.
Qed.

Lemma zip_with_app {A B C : Type} (f : A -> B -> C) (a a' : list A)
  (b b' : list B) :
  length a = length b ->
  zip_with f (a ++ a') (b ++ b') = zip_with f a b ++ zip_with f a' b'.
Proof.
  revert b; induction a as [|x a IH]; intros [|y b] H; try discriminate.
  - reflexivity.
  - cbn [app zip_with]. rewrite IH by (cbn in H; lia). reflexivity.
Qed.

(** X8: refining is local in time: the refinement of two runs of increments
    placed end to end, the first over an even number of intervals, is the
    two refinements placed end to end. *)
Theorem double_increments_concat (m p : nat)
  (ts U1a U1b U2a U2b : list float) :
  length U1a = 2 * m -> length U2a = 2 * m ->
  length U1b = 2 * p -> length U2b = 2 * p ->
  exists a1 a2 b1 b2 : list float,
    @double_increments E (A1 ts) (A1 U1a) (Some (A1 U2a))
      = Return (Triple (A1 (take_every 2 0 ts)) (A1 a1) (A1 a2)) /\
    @double_increments E (A1 ts) (A1 U1b) (Some (A1 U2b))
      = Return (Triple (A1 (take_every 2 0 ts)) (A1 b1) (A1 b2)) /\
    @double_increments E (A1 ts) (A1 (U1a ++ U1b)) (Some (A1 (U2a ++ U2b)))
      = Return (Triple (A1 (take_every 2 0 ts)) (A1 (a1 ++ b1))
                  (A1 (a2 ++ b2))).
Proof.
  intros Ha1 Ha2 Hb1 Hb2.
  exists (merge_U1 U1a), (merge_U2 U1a U2a), (merge_U1 U1b), (merge_U2 U1b U2b).
  split; [exact (double_increments_1d_U2 ts U1a U2a m Ha1 Ha2)|].
  split; [exact (double_increments_1d_U2 ts U1b U2b p Hb1 Hb2)|].
  rewrite (double_increments_1d_U2 ts (U1a ++ U1b) (U2a ++ U2b) (m + p))
    by (rewrite length_app; lia).
  destruct (take_every2_even_length U1a m Ha1) as [He1 Ho1].
  destruct (take_every2_even_length U2a m Ha2) as [He2 Ho2].
  unfold merge_U1, merge_U2. cbv zeta.
  rewrite !(take_every2_app m U1a U1b) by (auto; lia).
  rewrite !(take_every2_app m U2a U2b) by (auto; lia).
  rewrite !(zip_with_app PrimFloat.add (take_every 2 0 U1a)) by congruence.
  rewrite !(zip_with_app PrimFloat.sub (take_every 2 0 U1a)) by congruence.
  rewrite !map_app.
  rewrite zip_with_app
    by (rewrite length_map, zip_with_length; lia).
  rewrite zip_with_app
    by (rewrite zip_with_length, length_map, zip_with_length; lia).
  rewrite !map_app. reflexivity.
Qed.

End Concatenation.

Lemma double_increments_concat_witness :
  exists a1 a2 b1 b2 : list float,
    @double_increments unit (A1 ts9) (A1 ([1; 2] ++ [3; 4; 5; 6])%float)
      (Some (A1 ([0.5; -1] ++ [2; 0.25; -3; 1])%float))
    = Return (Triple (A1 (take_every 2 0 ts9)) (A1 (a1 ++ b1))
                (A1 (a2 ++ b2))) /\
    length a1 = 1 /\ length b1 = 2.
Proof.
  destruct (@double_increments_concat unit 1 2 ts9 [1; 2]%float
              [3; 4; 5; 6]%float [0.5; -1]%float [2; 0.25; -3; 1]%float
              eq_refl eq_refl eq_refl eq_refl)
    as (a1 & a2 & b1 & b2 & Ha & Hb & Hab).
  exists a1, a2, b1, b2. split; [exact Hab|].
  injection Ha as <- _. injection Hb as <- _. split; reflexivity.
Defined.

(** * Further properties of the estimator *)

Section EstimatorFailures.

Variable env : Env.

(** X9: what the integrator raises comes out of [calc_rate] as it is, and
    the runs that would follow are not made: the world is left as the
    failing run left it. *)
Theorem calc_rate_integrator_raises (integrator : Integrator env)
  (rho_0 : Rho env)
  (times U1s U2s times_2 U1s_2 U2s_2 times_4 U1s_4 U2s_4 : ndarray)
  (U1opt U2opt : option ndarray) (len : Z) (w wa wb : World env) :
  @py_len (IExn env) times = Return len ->
  or_randn env U1opt (len - 1)%Z w = (Return U1s, wa) ->
  or_randn env U2opt (len - 1)%Z wa = (Return U2s, wb) ->
  @double_increments (IExn env) times U1s (Some U2s)
    = Return (Triple times_2 U1s_2 U2s_2) ->
  @double_increments (IExn env) times_2 U1s_2 (Some U2s_2)
    = Return (Triple times_4 U1s_4 U2s_4) ->
  (forall e w1,
     integrator rho_0 times (Some U1s) (Some U2s) wb = (inr e, w1) ->
     calc_rate env integrator rho_0 times U1opt U2opt w
     = (Raise (IntegratorError e), w1))
  /\
  (forall sol w1 e w2,
     integrator rho_0 times (Some U1s) (Some U2s) wb = (inl sol, w1) ->
     integrator rho_0 times_2 (Some U1s_2) (Some U2s_2) w1 = (inr e, w2) ->
     calc_rate env integrator rho_0 times U1opt U2opt w
     = (Raise (IntegratorError e), w2))
  /\
  (forall sol w1 sol_2 w2 e w3,
     integrator rho_0 times (Some U1s) (Some U2s) wb = (inl sol, w1) ->
     integrator rho_0 times_2 (Some U1s_2) (Some U2s_2) w1 = (inl sol_2, w2) ->
     integrator rho_0 times_4 (Some U1s_4) (Some U2s_4) w2 = (inr e, w3) ->
     calc_rate env integrator rho_0 times U1opt U2opt w
     = (Raise (IntegratorError e), w3)).
Proof.
  intros Hlen HU1 HU2 Hr2 Hr4.
  split; [|split]; intros; unfold calc_rate, bind, lift, integrate, ret;
    rewrite Hlen, HU1, HU2, Hr2; cbn [unpack3]; rewrite Hr4; cbn [unpack3];
    repeat match goal with
           | H : integrator _ _ _ _ _ = _ |- _ => rewrite H; clear H
           end; reflexivity.
Qed.

(** X10: the final states are read coarsest first: a coarse or a middle run
    that returns no state at all makes [calc_rate] raise [IndexError],
    after the three runs. *)
Theorem calc_rate_no_final_state (integrator : Integrator env)
  (rho_0 : Rho env)
  (times U1s U2s times_2 U1s_2 U2s_2 times_4 U1s_4 U2s_4 : ndarray)
  (U1opt U2opt : option ndarray) (len : Z)
  (w wa wb w1 w2 w3 : World env) (sol sol_2 sol_4 : Solution) :
  @py_len (IExn env) times = Return len ->
  or_randn env U1opt (len - 1)%Z w = (Return U1s, wa) ->
  or_randn env U2opt (len - 1)%Z wa = (Return U2s, wb) ->
  @double_increments (IExn env) times U1s (Some U2s)
    = Return (Triple times_2 U1s_2 U2s_2) ->
  @double_increments (IExn env) times_2 U1s_2 (Some U2s_2)
    = Return (Triple times_4 U1s_4 U2s_4) ->
  integrator rho_0 times (Some U1s) (Some U2s) wb = (inl sol, w1) ->
  integrator rho_0 times_2 (Some U1s_2) (Some U2s_2) w1 = (inl sol_2, w2) ->
  integrator rho_0 times_4 (Some U1s_4) (Some U2s_4) w2 = (inl sol_4, w3) ->
  vec_soln sol_4 = [] \/ vec_soln sol_2 = [] ->
  calc_rate env integrator rho_0 times U1opt U2opt w = (Raise IndexError, w3).
Proof.
  intros Hlen HU1 HU2 Hr2 Hr4 Hi Hi2 Hi4 Hempty.
  unfold calc_rate, bind, lift, integrate, ret.
  rewrite Hlen, HU1, HU2, Hr2. cbn [unpack3]. rewrite Hr4. cbn [unpack3].
  rewrite Hi, Hi2, Hi4.
  destruct Hempty as [H|H]; rewrite H.
  - reflexivity.
  - unfold py_last at 1. destruct (rev (vec_soln sol_4)); reflexivity.
Qed.

(** X11: a grid whose number of intervals is odd and at least 5, or is 2 more
    than a multiple of 4 and at least 10, is refused by the first or the
    second refinement: [calc_rate] raises the broadcasting [ValueError]
    whatever the integrator, which is not run. *)
Theorem calc_rate_bad_interval_count (integrator : Integrator env)
  (rho_0 : Rho env) (n : nat) (ts U1s U2s : list float) (w : World env) :
  length ts = n + 1 -> length U1s = n -> length U2s = n ->
  (Nat.odd n = true /\ 5 <= n) \/ (n mod 4 = 2 /\ 10 <= n) ->
  calc_rate env integrator rho_0 (A1 ts) (Some (A1 U1s)) (Some (A1 U2s)) w
  = (Raise BroadcastError, w).
Proof.
  intros Hts HU1 HU2 Hn.
  unfold calc_rate, bind, lift, or_randn, ret. cbn [py_len].
  destruct Hn as [[Hodd H5]|[H2 H10]].
  - apply Nat.odd_spec in Hodd. destruct Hodd as [m Hm].
    rewrite (double_increments_odd_raises (E := IExn env) ts U1s
               (Some (A1 U2s)) m) by lia.
    reflexivity.
  - pose proof (Nat.div_mod_eq n 4) as Hd.
    assert (L1 : length U1s = 2 * (2 * (n / 4) + 1)) by lia.
    assert (L2 : length U2s = 2 * (2 * (n / 4) + 1)) by lia.
    rewrite (double_increments_1d_U2 (E := IExn env) ts U1s U2s _ L1 L2).
    cbn [unpack3].
    rewrite (double_increments_odd_raises (E := IExn env) _ (merge_U1 U1s) _
               (n / 4)).
    + reflexivity.
    + apply (merge_U1_length U1s _ L1).
    + lia.
Qed.

(** X12: degenerate grids.  A 0-d [times] has no length: [TypeError].  An
    empty [times] makes the number of increments [-1]: when [U1s] or
    [U2s] has to be drawn, the random source refuses the negative
    dimension; nothing is drawn. *)
Theorem calc_rate_degenerate_grid (integrator : Integrator env)
  (rho_0 : Rho env) (U1opt U2opt : option ndarray) (w : World env) :
  (forall x,
     calc_rate env integrator rho_0 (A0 x) U1opt U2opt w = (Raise TypeError, w))
  /\
  (U1opt = None \/ U2opt = None ->
   calc_rate env integrator rho_0 (A1 []) U1opt U2opt w
   = (Raise NegativeDimError, w)).
Proof.
  split; [reflexivity|].
  intros [-> | ->]; [reflexivity|].
  destruct U1opt; reflexivity.
Qed.

End EstimatorFailures.

(** An integrator that always raises, and one that returns no state. *)
Definition always_raises : Integrator Ref.env :=
  fun _ _ _ _ w => (inr 7, w).

Definition no_states : Integrator Ref.env :=
  fun _ _ _ _ w => (inl {| vec_soln := [] |}, w).

Lemma calc_rate_integrator_raises_witness :
  calc_rate Ref.env always_raises 1%float (A1 ts9)
    (Some (A1 us8)) (Some (A1 vs8)) 0
  = (Raise (IntegratorError 7), 0).
Proof.
  destruct (calc_rate_integrator_raises Ref.env always_raises 1%float
              (A1 ts9) (A1 us8) (A1 vs8)
              (A1 (take_every 2 0 ts9)) (A1 (merge_U1 us8))
              (A1 (merge_U2 us8 vs8))
              (A1 (take_every 4 0 ts9)) (A1 (merge_U1 (merge_U1 us8)))
              (A1 (merge_U2 (merge_U1 us8) (merge_U2 us8 vs8)))
              (Some (A1 us8)) (Some (A1 vs8)) 9%Z 0 0 0
              eq_refl eq_refl eq_refl eq_refl eq_refl) as [H _].
  apply (H 7 0). reflexivity.
Defined.

Lemma calc_rate_no_final_state_witness :
  calc_rate Ref.env no_states 1%float (A1 ts9)
    (Some (A1 us8)) (Some (A1 vs8)) 0
  = (Raise IndexError, 0).
Proof.
  apply (calc_rate_no_final_state Ref.env no_states 1%float
           (A1 ts9) (A1 us8) (A1 vs8)
           (A1 (take_every 2 0 ts9)) (A1 (merge_U1 us8))
           (A1 (merge_U2 us8 vs8))
           (A1 (take_every 4 0 ts9)) (A1 (merge_U1 (merge_U1 us8)))
           (A1 (merge_U2 (merge_U1 us8) (merge_U2 us8 vs8)))
           (Some (A1 us8)) (Some (A1 vs8)) 9%Z 0 0 0 0 0 0
           {| vec_soln := [] |} {| vec_soln := [] |} {| vec_soln := [] |});
    try reflexivity.
  left. reflexivity.
Defined.

Lemma calc_rate_bad_interval_count_witness :
  calc_rate Ref.env Ref.euler 1%float
    (A1 [0; 1; 2; 3; 4; 5; 6; 7; 8; 9; 10]%float)
    (Some (A1 [1; 2; 3; 4; 5; 6; 7; 8; 9; 10]%float))
    (Some (A1 [1; 2; 3; 4; 5; 6; 7; 8; 9; 10]%float)) 0
  = (Raise BroadcastError, 0).
Proof.
  apply (calc_rate_bad_interval_count Ref.env Ref.euler 1%float 10);
    try reflexivity.
  right. split; [reflexivity|lia].
Defined.

Lemma calc_rate_degenerate_grid_witness :
  calc_rate Ref.env Ref.euler 1%float (A1 []) (Some (A1 us8)) None 3
  = (Raise NegativeDimError, 3).
Proof.
  apply (calc_rate_degenerate_grid Ref.env Ref.euler 1%float
           (Some (A1 us8)) None 3).
  right. reflexivity.
Defined.

(** * Further properties: batches and memory *)

(** X3: on a batch of [2 M] rows of [c] columns, [double_increments]
    returns [M] rows of [c] columns, and column [j] of row [i] is the sum
    of column [j] of rows [2i] and [2i + 1] of the batch, over [sqrt(2)]:
    the slices run along the first axis. *)
Theorem double_increments_batch_rows (E : Type) (ts : list float) (c : nat)
  (rows : list (list float)) (M : nat) :
  Forall (fun r => length r = c) rows -> length rows = 2 * M ->
  exists out : list (list float),
    @double_increments E (A1 ts) (A2 c rows) None
      = Return (Pair (A1 (take_every 2 0 ts)) (A2 c out)) /\
    length out = M /\
    Forall (fun r => length r = c) out /\
    forall i j, i < M -> j < c ->
      nth j (nth i out []) 0%float =
        ((nth j (nth (2 * i) rows []) 0 + nth j (nth (2 * i + 1) rows []) 0)
         / sqrt 2)%float.
Proof.
  intros Hwf HN.
  destruct (take_every2_even_length rows M HN) as [He Ho].
  rewrite Forall_forall in Hwf.
  assert (Hrow : forall i, i < M ->
            nth_error
              (map (map (fun s => PrimFloat.div s (PrimFloat.sqrt 2)))
                 (zip_with (zip_with PrimFloat.add)
                    (take_every 2 0 rows) (take_every 2 1 rows))) i =
            Some (map (fun s => PrimFloat.div s (PrimFloat.sqrt 2))
                    (zip_with PrimFloat.add (nth (2 * i) rows [])
                       (nth (2 * i + 1) rows [])))).
  { intros i Hi.
    rewrite nth_error_map, zip_with_nth_error, !take_every_nth_error.
    replace (0 + i * 2) with (2 * i) by lia.
    replace (1 + i * 2) with (2 * i + 1) by lia.
    rewrite (nth_error_nth' rows [] (n := 2 * i)) by lia.
    rewrite (nth_error_nth' rows [] (n := 2 * i + 1)) by lia.
    reflexivity. }
  eexists. split; [|split; [|split]].
  - apply (double_increments_batch ts c rows M); [|exact HN].
    apply Forall_forall. exact Hwf.
  - rewrite length_map, zip_with_length. lia.
  - apply Forall_forall. intros r Hr.
    apply In_nth_error in Hr. destruct Hr as [i Hi].
    assert (HiM : i < M).
    { assert (Hlt : i < length
                  (map (map (fun s => PrimFloat.div s (PrimFloat.sqrt 2)))
                     (zip_with (zip_with PrimFloat.add)
                        (take_every 2 0 rows) (take_every 2 1 rows))))
        by (apply nth_error_Some; congruence).
      rewrite length_map, zip_with_length in Hlt. lia. }
    assert (L0 : length (nth (2 * i) rows []) = c)
      by (apply Hwf, nth_In; lia).
    assert (L1 : length (nth (2 * i + 1) rows []) = c)
      by (apply Hwf, nth_In; lia).
    rewrite (Hrow i HiM) in Hi. injection Hi as <-.
    rewrite length_map, zip_with_length.
    change (i + (i + 0)) with (2 * i). lia.
  - intros i j Hi Hj.
    rewrite (nth_error_nth _ _ [] (Hrow i Hi)).
    assert (L0 : length (nth (2 * i) rows []) = c)
      by (apply Hwf, nth_In; lia).
    assert (L1 : length (nth (2 * i + 1) rows []) = c)
      by (apply Hwf, nth_In; lia).
    apply nth_error_nth.
    rewrite nth_error_map, zip_with_nth_error.
    rewrite !nth_error_in_range by lia. reflexivity.
Qed.

Lemma double_increments_batch_rows_witness :
  exists out : list (list float),
    @double_increments unit (A1 ts9)
      (A2 3 [[1; 2; 3]; [4; 5; 6]; [7; 8; 9]; [10; 11; 12]]%float) None
    = Return (Pair (A1 (take_every 2 0 ts9)) (A2 3 out)) /\
    length out = 2 /\
    nth 2 (nth 1 out []) 0%float = ((9 + 12) / sqrt 2)%float.
Proof.
  destruct (double_increments_batch_rows unit ts9 3
              [[1; 2; 3]; [4; 5; 6]; [7; 8; 9]; [10; 11; 12]]%float 2)
    as (out & H1 & H2 & _ & H4).
  - repeat constructor.
  - reflexivity.
  - exists out. split; [exact H1|]. split; [exact H2|].
    apply (H4 1 2); lia.
Defined.

(** X13: the arguments may share memory.  Whatever buffers [times],
    [U1s] and [U2s] are views of, overlapping or not, the arrays that
    [double_increments] returns read what it returns on the values the
    arguments read, and it raises what it raises on them. *)
Theorem double_increments_h_any_overlap (E : Type) (h : heap)
  (times U1s : harray) (U2s : option harray) :
  base times < length h -> wf_ndarray (contents h times) ->
  base U1s < length h -> wf_ndarray (contents h U1s) ->
  (forall u, U2s = Some u -> base u < length h /\ wf_ndarray (contents h u)) ->
  match @double_increments_h E times U1s U2s h,
        @double_increments E (contents h times) (contents h U1s)
          (option_map (contents h) U2s)
  with
  | (Return hr, h'), Return vr =>
      contents h' (hr_times hr) = refined_times vr /\
      contents h' (hr_U1s hr) = refined_U1s vr /\
      option_map (contents h') (hr_U2s hr) = refined_U2s vr
  | (Raise e, _), Raise e' => e = e'
  | _, _ => False
  end.
Proof.
  intros Bt Wt Bu Wu HU2.
  assert (Ht : reads h times (contents h times)) by (repeat split; assumption).
  assert (Hu : reads h U1s (contents h U1s)) by (repeat split; assumption).
  assert (Hv : reads_opt h U2s (option_map (contents h) U2s)).
  { destruct U2s as [u|]; cbn; [|exact I].
    destruct (HU2 u eq_refl). repeat split; assumption. }
  pose proof (double_increments_h_refines (E := E) h times U1s U2s _ _ _
                Ht Hu Hv h (extends_refl h)) as Hsim.
  destruct (double_increments_h times U1s U2s h) as [[hr|e] h'],
           (double_increments (contents h times) (contents h U1s)
              (option_map (contents h) U2s)) as [vr|e'];
    try contradiction.
  - destruct Hsim as [_ HR].
    destruct hr as [t u|t u v], vr as [vt vu|vt vu vv]; cbn in HR;
      try contradiction.
    + destruct HR as ((_ & H1 & _) & (_ & H2 & _)). cbn. auto.
    + destruct HR as ((_ & H1 & _) & (_ & H2 & _) & (_ & H3 & _)).
      cbn. rewrite H3. auto.
  - destruct Hsim as [He _]. exact He.
Qed.

Lemma double_increments_h_any_overlap_witness :
  let h := [ts9] in
  let times := whole1 0 9 in
  let U1s := {| base := 0; offset := 1; step := 1; shape := H1 8 |} in
  let U2s := {| base := 0; offset := 0; step := 1; shape := H1 8 |} in
  match @double_increments_h unit times U1s (Some U2s) h,
        @double_increments unit (contents h times) (contents h U1s)
          (Some (contents h U2s))
  with
  | (Return hr, h'), Return vr =>
      contents h' (hr_times hr) = refined_times vr /\
      contents h' (hr_U1s hr) = refined_U1s vr /\
      option_map (contents h') (hr_U2s hr) = refined_U2s vr
  | (Raise e, _), Raise e' => e = e'
  | _, _ => False
  end.
Proof.
  intros h times U1s U2s.
  apply (double_increments_h_any_overlap unit h times U1s (Some U2s)).
  - cbn. lia.
  - exact I.
  - cbn. lia.
  - exact I.
  - intros u Hu. injection Hu as <-. split; [cbn; lia|exact I].
Defined.
